(** * trimLines: a shallow embedding of [src/functions/trimLines.ts]

    A JavaScript string is a finite sequence of UTF-16 code units; it is
    embedded as a list of code units, each code unit as an [N].  Numbers
    that the source subtracts ([str.length - str.trimLeft().length],
    [indentOfThisItem - leastIndent]) are embedded as [Z], so that a negative
    difference stays visible.  The one operation of the source that can throw
    is [' '.repeat(count)], a [RangeError] for a negative count: the embedding
    therefore lives in a small error monad. *)

From Stdlib Require Import List ZArith NArith Bool Lia Ascii String.
Import ListNotations.

Open Scope Z_scope.

(** ** Strings and the built-ins the source calls *)

Definition code_unit := N.
Definition jsstring := list code_unit.

(** String literals of the source, as code units. *)
Definition lit (s : string) : jsstring :=
  map N_of_ascii (list_ascii_of_string s).

Definition newline : code_unit := 10%N.
Definition space : code_unit := 32%N.

(** [WhiteSpace] and [LineTerminator] of ECMAScript: what [trim],
    [trimLeft] and [trimRight] strip.  All of them are single code units. *)
Definition isWhiteSpace (c : code_unit) : bool :=
  ((c =? 9) || (c =? 10) || (c =? 11) || (c =? 12) || (c =? 13) || (c =? 32)
   || (c =? 160) || (c =? 5760)
   || ((8192 <=? c) && (c <=? 8202))
   || (c =? 8232) || (c =? 8233) || (c =? 8239) || (c =? 8287)
   || (c =? 12288) || (c =? 65279))%N.

(** [str.length] *)
Definition len (s : jsstring) : Z := Z.of_nat (List.length s).

(** [str.trimLeft()] *)
Fixpoint trimLeft (s : jsstring) : jsstring :=
  match s with
  | [] => []
  | c :: t => if isWhiteSpace c then trimLeft t else s
  end.

(** [str.trimRight()] *)
Definition trimRight (s : jsstring) : jsstring := rev (trimLeft (rev s)).

(** [str.trim()] *)
Definition trim (s : jsstring) : jsstring := trimRight (trimLeft s).

(** Prepends a code unit to the first line of a non-empty list of lines. *)
Definition cons_first (c : code_unit) (ls : list jsstring) : list jsstring :=
  match ls with
  | [] => [[c]]
  | l :: ls' => (c :: l) :: ls'
  end.

(** [str.split('\n')]: a string with n newlines gives n+1 lines. *)
Fixpoint split (s : jsstring) : list jsstring :=
  match s with
  | [] => [[]]
  | c :: t => if (c =? newline)%N then [] :: split t else cons_first c (split t)
  end.

(** [arr.join('\n')] *)
Fixpoint join (ls : list jsstring) : jsstring :=
  match ls with
  | [] => []
  | l :: rest =>
      match rest with
      | [] => l
      | _ :: _ => l ++ newline :: join rest
      end
  end.

(** [arr.slice(start, end)] for indices that are not negative. *)
Definition slice {A : Type} (start stop : nat) (l : list A) : list A :=
  firstn (stop - start) (skipn start l).

(** [arr.slice(start)] *)
Definition slice_from {A : Type} (start : nat) (l : list A) : list A :=
  skipn start l.

(** ** Errors *)

Inductive error : Type :=
| RangeError.

Inductive result (A : Type) : Type :=
| Ok (a : A)
| Throw (e : error).
Arguments Ok {A} a.
Arguments Throw {A} e.

Definition bind {A B : Type} (r : result A) (k : A -> result B) : result B :=
  match r with
  | Ok a => k a
  | Throw e => Throw e
  end.

Notation "x <- r ;; k" := (bind r (fun x => k))
  (at level 61, r at next level, right associativity).

(** [' '.repeat(count)]: throws a [RangeError] when [count] is negative. *)
Definition repeat_space (count : Z) : result jsstring :=
  if count <? 0 then Throw RangeError
  else Ok (repeat space (Z.to_nat count)).

(** ** Configuration *)

(** The optional argument [config], each of its fields optional. *)
Record PartialConfig : Type := mkPartialConfig {
  pTrimLeftToLeastIndent : option bool;
  pTrimVerticalStart : option bool;
  pTrimVerticalEnd : option bool
}.

Record Config : Type := mkConfig {
  trimLeftToLeastIndent : bool;
  trimVerticalStart : bool;
  trimVerticalEnd : bool
}.

(** [x ?? true] *)
Definition orTrue (x : option bool) : bool :=
  match x with
  | Some b => b
  | None => true
  end.

(** [config?.field ?? true], for the three fields. *)
Definition resolve (config : option PartialConfig) : Config :=
  match config with
  | None => mkConfig true true true
  | Some c =>
      mkConfig (orTrue (pTrimLeftToLeastIndent c))
               (orTrue (pTrimVerticalStart c))
               (orTrue (pTrimVerticalEnd c))
  end.

(** ** The function *)

Definition getStringLeftIndentLength (s : jsstring) : Z :=
  len s - len (trimLeft s).

(** One iteration of the loop that looks for the least indent. *)
Definition leastIndentStep (leastIndent : option Z) (l : jsstring) : option Z :=
  if len (trim l) =? 0 then leastIndent
  else
    let indent := getStringLeftIndentLength l in
    match leastIndent with
    | None => Some indent
    | Some m => if indent <? m then Some indent else leastIndent
    end.

(** The loop, run only when [trimLeftToLeastIndent] is set. *)
Definition computeLeastIndent (enabled : bool) (splitLines : list jsstring)
  : option Z :=
  if enabled then fold_left leastIndentStep splitLines None else None.

(** The two indices the callback of [map] maintains. *)
Record Occupied : Type := mkOccupied {
  firstOccupiedLineIdx : option nat;
  lastOccupiedLineIdx : option nat
}.

(** The value the callback of [map] returns for line [l].  The test
    [newVal.length > 1 && trimLeftToLeastIndent && leastIndent !== null] is
    the [match] on [leastIndent] together with the conjunction below. *)
Definition lineValue (enabled : bool) (leastIndent : option Z) (l : jsstring)
  : result jsstring :=
  let newVal := trim l in
  match leastIndent with
  | Some least =>
      if (1 <? len newVal) && enabled then
        let indentOfThisItem := getStringLeftIndentLength l in
        let totalIndent := indentOfThisItem - least in
        pad <- repeat_space totalIndent ;;
        Ok (pad ++ newVal)
      else Ok newVal
  | None => Ok newVal
  end.

(** The bookkeeping of the callback at index [idx]. *)
Definition bookkeep (idx : nat) (newVal : jsstring) (st : Occupied) : Occupied :=
  if 0 <? len newVal then
    mkOccupied
      (match firstOccupiedLineIdx st with
       | None => Some idx
       | Some i => Some i
       end)
      (Some idx)
  else st.

(** [splitLines.map((l, idx) => ...)], from index [idx] on, threading the
    two indices. *)
Fixpoint mapLines (enabled : bool) (leastIndent : option Z) (idx : nat)
  (st : Occupied) (ls : list jsstring) : result (list jsstring * Occupied) :=
  match ls with
  | [] => Ok ([], st)
  | l :: rest =>
      newVal <- lineValue enabled leastIndent l ;;
      r <- mapLines enabled leastIndent (S idx) (bookkeep idx newVal st) rest ;;
      Ok (newVal :: fst r, snd r)
  end.

(** The removal of the leading and trailing blocks of lines. *)
Definition verticalTrim (c : Config) (first last : nat)
  (resultArrPreLeadTrail : list jsstring) : list jsstring :=
  if trimVerticalStart c && trimVerticalEnd c then
    slice first (last + 1) resultArrPreLeadTrail
  else if trimVerticalStart c then
    slice_from first resultArrPreLeadTrail
  else if trimVerticalEnd c then
    slice 0 (last + 1) resultArrPreLeadTrail
  else resultArrPreLeadTrail.

(** [resultArrPreLeadTrail] and the two indices, for the lines of [str]. *)
Definition resultArrPreLeadTrail (c : Config) (splitLines : list jsstring)
  : result (list jsstring * Occupied) :=
  let leastIndent := computeLeastIndent (trimLeftToLeastIndent c) splitLines in
  mapLines (trimLeftToLeastIndent c) leastIndent 0 (mkOccupied None None)
    splitLines.

Definition trimLinesWith (c : Config) (str : jsstring) : result jsstring :=
  let splitLines := split str in
  r <- resultArrPreLeadTrail c splitLines ;;
  match firstOccupiedLineIdx (snd r), lastOccupiedLineIdx (snd r) with
  | Some first, Some last => Ok (join (verticalTrim c first last (fst r)))
  | _, _ => Ok []
  end.

Definition trimLines (str : jsstring) (config : option PartialConfig)
  : result jsstring :=
  trimLinesWith (resolve config) str.

(** The default configuration: [config] omitted. *)
Definition defaultConfig : option PartialConfig := None.

(** ** What the embedding computes, as list functions

    The definitions below are not taken from the source: they describe the
    result of the loops above and are proved equal to them. *)

(** The value of a line when [repeat] does not throw. *)
Definition lineOut (enabled : bool) (leastIndent : option Z) (l : jsstring)
  : jsstring :=
  match leastIndent with
  | Some least =>
      if (1 <? len (trim l)) && enabled then
        repeat space (Z.to_nat (getStringLeftIndentLength l - least)) ++ trim l
      else trim l
  | None => trim l
  end.

(** Index of the first non-empty string, counting from [idx]. *)
Fixpoint firstOcc (idx : nat) (rs : list jsstring) : option nat :=
  match rs with
  | [] => None
  | r :: t => if 0 <? len r then Some idx else firstOcc (S idx) t
  end.

(** Index of the last non-empty string, counting from [idx]. *)
Fixpoint lastOcc (idx : nat) (rs : list jsstring) : option nat :=
  match rs with
  | [] => None
  | r :: t =>
      match lastOcc (S idx) t with
      | Some j => Some j
      | None => if 0 <? len r then Some idx else None
      end
  end.

(** Drops the empty strings at the front. *)
Fixpoint dropFront (rs : list jsstring) : list jsstring :=
  match rs with
  | [] => []
  | r :: t => if 0 <? len r then rs else dropFront t
  end.

(** Drops the empty strings at the back. *)
Fixpoint dropBack (rs : list jsstring) : list jsstring :=
  match rs with
  | [] => []
  | r :: t =>
      match dropBack t with
      | [] => if 0 <? len r then [r] else []
      | t' => r :: t'
      end
  end.

(** The indices the loop leaves, in terms of [firstOcc] and [lastOcc]. *)
Definition occupiedAfter (idx : nat) (st : Occupied) (rs : list jsstring)
  : Occupied :=
  mkOccupied
    (match firstOccupiedLineIdx st with
     | Some i => Some i
     | None => firstOcc idx rs
     end)
    (match lastOcc idx rs with
     | Some j => Some j
     | None => lastOccupiedLineIdx st
     end).

(** The vertical trimming, without indices. *)
Definition vtrim (c : Config) (rs : list jsstring) : list jsstring :=
  let front := if trimVerticalStart c then dropFront rs else rs in
  if trimVerticalEnd c then dropBack front else front.

(** The lines after the per-line pass. *)
Definition outLines (c : Config) (splitLines : list jsstring) : list jsstring :=
  map (lineOut (trimLeftToLeastIndent c)
         (computeLeastIndent (trimLeftToLeastIndent c) splitLines))
      splitLines.

(** The whole function, without indices and without errors. *)
Definition trimLinesPure (c : Config) (str : jsstring) : jsstring :=
  let rs := outLines c (split str) in
  match firstOcc 0 rs with
  | Some _ => join (vtrim c rs)
  | None => []
  end.

(** Number of lines at the front whose trimmed content is empty. *)
Fixpoint leadingBlank (ls : list jsstring) : nat :=
  match ls with
  | [] => 0
  | l :: rest => if 0 <? len (trim l) then 0 else S (leadingBlank rest)
  end.

(** Index, among the lines of the input, of the first line of the output. *)
Definition lineOffset (c : Config) (splitLines : list jsstring) : nat :=
  if trimVerticalStart c then leadingBlank splitLines else 0.

Definition blank (l : jsstring) : Prop := trim l = [].
Definition allWhite (s : jsstring) : Prop :=
  Forall (fun c => isWhiteSpace c = true) s.

(** Line [i] of the per-line pass lies in the range that [verticalTrim]
    keeps: from [first] on when [trimVerticalStart] is set, up to [last] when
    [trimVerticalEnd] is set. *)
Definition keptByVerticalTrim (c : Config) (first last i : nat) : Prop :=
  (trimVerticalStart c = true -> (first <= i)%nat) /\
  (trimVerticalEnd c = true -> (i <= last)%nat).

(** The index, in the kept range, of line [i] of the per-line pass. *)
Definition outIndex (c : Config) (first i : nat) : nat :=
  if trimVerticalStart c then (i - first)%nat else i.

(** Length of the run of whitespace code units at the front of a string. *)
Fixpoint leadingWhite (s : jsstring) : nat :=
  match s with
  | [] => 0
  | c :: t => if isWhiteSpace c then S (leadingWhite t) else 0
  end.

(** The code units of a string that are not whitespace, in order. *)
Definition nonWhite (s : jsstring) : jsstring :=
  filter (fun c => negb (isWhiteSpace c)) s.

(** The configuration that one run under [c] followed by one under [c']
    amounts to. *)
Definition mergeConfig (c c' : Config) : Config :=
  mkConfig (trimLeftToLeastIndent c && trimLeftToLeastIndent c')
           (trimVerticalStart c || trimVerticalStart c')
           (trimVerticalEnd c || trimVerticalEnd c').

(** Length of the lines of [ls], each counted with one line break. *)
Fixpoint totalLen (ls : list jsstring) : Z :=
  match ls with
  | [] => 0
  | l :: rest => len l + 1 + totalLen rest
  end.

(** [str] with [k] more spaces in front of each of its lines. *)
Definition indentAll (k : nat) (str : jsstring) : jsstring :=
  join (map (fun l => repeat space k ++ l) (split str)).

(** [m] is the least leading-whitespace run length among the lines of [ls]
    that are not blank. *)
Definition isMinIndent (ls : list jsstring) (m : Z) : Prop :=
  (exists l, In l ls /\ ~ blank l /\ getStringLeftIndentLength l = m) /\
  (forall l, In l ls -> ~ blank l -> m <= getStringLeftIndentLength l).
Definition noNewline (l : jsstring) : Prop := ~ In newline l.

(** Number of lines of a string: its newlines plus one. *)
Definition lineCount (s : jsstring) : nat :=
  S (List.length (filter (fun c => (c =? newline)%N) s)).

(** ** The built-ins *)

Lemma len_nonneg (s : jsstring) : 0 <= len s.
Proof. unfold len. lia. Qed.

Lemma len_nil_iff (s : jsstring) : len s = 0 <-> s = [].
Proof.
  unfold len. destruct s; simpl; split; intros H; try reflexivity;
    try discriminate; lia.
Qed.

Lemma len_app (a b : jsstring) : len (a ++ b) = len a + len b.
Proof. unfold len. rewrite length_app. lia. Qed.

Lemma len_repeat (c : code_unit) (n : nat) : len (repeat c n) = Z.of_nat n.
Proof. unfold len. now rewrite repeat_length. Qed.

Lemma trimLeft_length (s : jsstring) : len (trimLeft s) <= len s.
Proof.
  unfold len. induction s as [|c t IH]; simpl; [lia|].
  destruct (isWhiteSpace c); simpl; lia.
Qed.

Lemma indent_nonneg (s : jsstring) : 0 <= getStringLeftIndentLength s.
Proof. unfold getStringLeftIndentLength. pose proof (trimLeft_length s). lia. Qed.

Lemma trimLeft_head (s : jsstring) (c : code_unit) (t : jsstring) :
  trimLeft s = c :: t -> isWhiteSpace c = false.
Proof.
  induction s as [|d u IH]; simpl; [discriminate|].
  destruct (isWhiteSpace d) eqn:E; [exact IH|].
  intros H. injection H as -> _. exact E.
Qed.

Lemma trimLeft_fixed (c : code_unit) (t : jsstring) :
  isWhiteSpace c = false -> trimLeft (c :: t) = c :: t.
Proof. intros H. simpl. now rewrite H. Qed.

Lemma trimLeft_idem (s : jsstring) : trimLeft (trimLeft s) = trimLeft s.
Proof.
  destruct (trimLeft s) as [|c t] eqn:E; [reflexivity|].
  apply trimLeft_fixed. eapply trimLeft_head; eassumption.
Qed.

Lemma trimLeft_app (x y : jsstring) :
  trimLeft (x ++ y) =
  match trimLeft x with
  | [] => trimLeft y
  | _ :: _ => trimLeft x ++ y
  end.
Proof.
  induction x as [|c t IH]; simpl; [reflexivity|].
  destruct (isWhiteSpace c); [exact IH|reflexivity].
Qed.

Lemma trimLeft_allWhite (s : jsstring) : allWhite s <-> trimLeft s = [].
Proof.
  unfold allWhite. induction s as [|c t IH]; simpl.
  - split; [reflexivity|constructor].
  - destruct (isWhiteSpace c) eqn:E; split; intros H.
    + apply IH. now inversion H.
    + constructor; [exact E|now apply IH].
    + inversion H; congruence.
    + discriminate.
Qed.

Lemma trimLeft_white_prefix (w s : jsstring) :
  allWhite w -> trimLeft (w ++ s) = trimLeft s.
Proof.
  intros H. rewrite trimLeft_app.
  apply trimLeft_allWhite in H. now rewrite H.
Qed.

Lemma allWhite_repeat_space (n : nat) : allWhite (repeat space n).
Proof. unfold allWhite. induction n; simpl; constructor; auto. Qed.

(** The recursive equation of [trimRight]. *)
Lemma trimRight_cons (c : code_unit) (u : jsstring) :
  trimRight (c :: u) =
  match trimRight u with
  | [] => if isWhiteSpace c then [] else [c]
  | _ :: _ => c :: trimRight u
  end.
Proof.
  unfold trimRight. simpl rev at 1. rewrite trimLeft_app.
  destruct (trimLeft (rev u)) as [|d t] eqn:E.
  - simpl. destruct (isWhiteSpace c); reflexivity.
  - rewrite rev_app_distr.
    assert (R : rev (d :: t) <> []).
    { intros R. apply (f_equal (@List.length _)) in R.
      rewrite length_rev in R. discriminate. }
    destruct (rev (d :: t)); [congruence|reflexivity].
Qed.

Lemma trimRight_nil : trimRight [] = [].
Proof. reflexivity. Qed.

Lemma trimRight_idem (s : jsstring) : trimRight (trimRight s) = trimRight s.
Proof.
  unfold trimRight. rewrite rev_involutive, trimLeft_idem. reflexivity.
Qed.

Lemma trimRight_app (a b : jsstring) :
  trimRight b <> [] -> trimRight (a ++ b) = a ++ trimRight b.
Proof.
  intros H. induction a as [|c t IH]; simpl; [reflexivity|].
  rewrite trimRight_cons, IH.
  destruct (t ++ trimRight b) eqn:E; [|reflexivity].
  apply app_eq_nil in E. tauto.
Qed.

Lemma trimRight_allWhite (s : jsstring) : allWhite s -> trimRight s = [].
Proof.
  unfold allWhite. induction 1 as [|c t Hc _ IH]; [reflexivity|].
  rewrite trimRight_cons, IH, Hc. reflexivity.
Qed.

Lemma trimRight_nonwhite_head (c : code_unit) (u : jsstring) :
  isWhiteSpace c = false -> exists v, trimRight (c :: u) = c :: v.
Proof.
  intros H. rewrite trimRight_cons, H.
  destruct (trimRight u); eauto.
Qed.

Lemma trim_trimLeft (l : jsstring) : trimLeft (trim l) = trim l.
Proof.
  unfold trim. destruct (trimLeft l) as [|c u] eqn:E; [reflexivity|].
  destruct (trimRight_nonwhite_head c u) as [v Hv].
  - eapply trimLeft_head; eassumption.
  - rewrite Hv. apply trimLeft_fixed. eapply trimLeft_head; eassumption.
Qed.

Lemma trim_trimRight (l : jsstring) : trimRight (trim l) = trim l.
Proof. unfold trim. apply trimRight_idem. Qed.

Lemma trim_idem (l : jsstring) : trim (trim l) = trim l.
Proof. unfold trim at 1. rewrite trim_trimLeft. apply trim_trimRight. Qed.

Lemma blank_iff_allWhite (l : jsstring) : blank l <-> allWhite l.
Proof.
  unfold blank, trim. split; intros H.
  - apply trimLeft_allWhite.
    destruct (trimLeft l) as [|c u] eqn:E; [reflexivity|].
    destruct (trimRight_nonwhite_head c u) as [v Hv].
    + eapply trimLeft_head; eassumption.
    + congruence.
  - apply trimLeft_allWhite in H. now rewrite H.
Qed.

Lemma trim_length (l : jsstring) : len (trim l) <= len l.
Proof.
  unfold trim, trimRight, len. rewrite length_rev.
  pose proof (trimLeft_length (rev (trimLeft l))) as H1.
  pose proof (trimLeft_length l) as H2.
  unfold len in *. rewrite length_rev in H1. lia.
Qed.

(** A space prefix in front of a trimmed, non-empty string. *)
Lemma trim_padded (n : nat) (l : jsstring) :
  trim l <> [] -> trim (repeat space n ++ trim l) = trim l.
Proof.
  intros H. unfold trim at 1.
  rewrite trimLeft_white_prefix by apply allWhite_repeat_space.
  rewrite trim_trimLeft. apply trim_trimRight.
Qed.

Lemma indent_padded (n : nat) (l : jsstring) :
  getStringLeftIndentLength (repeat space n ++ trim l) = Z.of_nat n.
Proof.
  unfold getStringLeftIndentLength.
  rewrite trimLeft_white_prefix by apply allWhite_repeat_space.
  rewrite trim_trimLeft, len_app, len_repeat. lia.
Qed.

Lemma indent_trimmed (l : jsstring) : getStringLeftIndentLength (trim l) = 0.
Proof. unfold getStringLeftIndentLength. rewrite trim_trimLeft. lia. Qed.

Lemma trimRight_padded (n : nat) (l : jsstring) :
  trim l <> [] ->
  trimRight (repeat space n ++ trim l) = repeat space n ++ trim l.
Proof.
  intros H. rewrite trimRight_app; rewrite trim_trimRight; auto.
Qed.

(** ** Lines: [split] and [join] *)

Lemma split_not_nil (s : jsstring) : split s <> [].
Proof.
  induction s as [|c t IH]; simpl; [discriminate|].
  destruct (c =? newline)%N; [discriminate|].
  destruct (split t); simpl; discriminate.
Qed.

Lemma split_length (s : jsstring) : List.length (split s) = lineCount s.
Proof.
  unfold lineCount. induction s as [|c t IH]; simpl; [reflexivity|].
  destruct (c =? newline)%N; simpl; [now rewrite IH|].
  rewrite <- IH. pose proof (split_not_nil t).
  destruct (split t); simpl; congruence.
Qed.

Lemma split_noNewline (s : jsstring) : Forall noNewline (split s).
Proof.
  unfold noNewline. induction s as [|c t IH]; simpl.
  - constructor; auto.
  - destruct (c =? newline)%N eqn:E.
    + constructor; auto.
    + apply N.eqb_neq in E.
      destruct (split t) as [|l ls]; simpl.
      * constructor; [|constructor]. simpl. intuition congruence.
      * inversion IH; subst. constructor; [|assumption].
        simpl. intuition congruence.
Qed.

Lemma split_allWhite (s : jsstring) :
  allWhite s -> Forall allWhite (split s).
Proof.
  unfold allWhite. induction 1 as [|c t Hc Ht IH]; simpl.
  - constructor; constructor.
  - destruct (c =? newline)%N.
    + constructor; [constructor|assumption].
    + destruct (split t) as [|l ls]; simpl.
      * constructor; [|constructor]. constructor; [assumption|constructor].
      * inversion IH; subst. constructor; [|assumption].
        constructor; assumption.
Qed.

Lemma split_line_app (l rest : jsstring) :
  noNewline l -> split (l ++ newline :: rest) = l :: split rest.
Proof.
  unfold noNewline. induction l as [|c t IH]; intros H; simpl.
  - reflexivity.
  - destruct (c =? newline)%N eqn:E.
    + apply N.eqb_eq in E. exfalso. apply H. now left.
    + rewrite IH; [reflexivity|]. intros Hin. apply H. now right.
Qed.

Lemma split_single (l : jsstring) : noNewline l -> split l = [l].
Proof.
  unfold noNewline. induction l as [|c t IH]; intros H; simpl.
  - reflexivity.
  - destruct (c =? newline)%N eqn:E.
    + apply N.eqb_eq in E. exfalso. apply H. now left.
    + rewrite IH; [reflexivity|]. intros Hin. apply H. now right.
Qed.

Lemma split_join (ls : list jsstring) :
  ls <> [] -> Forall noNewline ls -> split (join ls) = ls.
Proof.
  induction ls as [|l rest IH]; intros Hne Hall; [congruence|].
  inversion Hall as [|? ? Hl Hrest]; subst.
  destruct rest as [|l' rest'].
  - simpl. now apply split_single.
  - change (join (l :: l' :: rest')) with (l ++ newline :: join (l' :: rest')).
    rewrite split_line_app by assumption.
    rewrite IH; [reflexivity|discriminate|assumption].
Qed.

Lemma noNewline_trimLeft (l : jsstring) : noNewline l -> noNewline (trimLeft l).
Proof.
  unfold noNewline. induction l as [|c t IH]; simpl; [auto|].
  destruct (isWhiteSpace c); simpl; intros H Hin; [|now apply H].
  apply IH; [|assumption]. intros Hin'. apply H. now right.
Qed.

Lemma noNewline_rev (l : jsstring) : noNewline l -> noNewline (rev l).
Proof. unfold noNewline. intros H Hin. apply H. now apply in_rev. Qed.

Lemma noNewline_trim (l : jsstring) : noNewline l -> noNewline (trim l).
Proof.
  intros H. unfold trim, trimRight.
  auto using noNewline_rev, noNewline_trimLeft.
Qed.

Lemma noNewline_padded (n : nat) (l : jsstring) :
  noNewline l -> noNewline (repeat space n ++ l).
Proof.
  unfold noNewline. intros H Hin. apply in_app_or in Hin.
  destruct Hin as [Hin|Hin]; [|auto].
  apply repeat_spec in Hin. discriminate.
Qed.

Lemma noNewline_lineOut (en : bool) (least : option Z) (l : jsstring) :
  noNewline l -> noNewline (lineOut en least l).
Proof.
  intros H. unfold lineOut.
  destruct least; [destruct (_ && _)|];
    auto using noNewline_padded, noNewline_trim.
Qed.

(** ** The least indent *)

Lemma leastIndentStep_blank (acc : option Z) (l : jsstring) :
  blank l -> leastIndentStep acc l = acc.
Proof. unfold blank, leastIndentStep. intros ->. reflexivity. Qed.

Lemma leastIndentStep_occupied (acc : option Z) (l : jsstring) :
  ~ blank l ->
  leastIndentStep acc l =
  Some (match acc with
        | None => getStringLeftIndentLength l
        | Some m => Z.min (getStringLeftIndentLength l) m
        end).
Proof.
  unfold blank, leastIndentStep. intros H.
  destruct (len (trim l) =? 0) eqn:E.
  - apply Z.eqb_eq, len_nil_iff in E. contradiction.
  - destruct acc as [m|]; [|reflexivity].
    destruct (getStringLeftIndentLength l <? m) eqn:C.
    + apply Z.ltb_lt in C. f_equal. lia.
    + apply Z.ltb_ge in C. f_equal. lia.
Qed.

Lemma blank_dec (l : jsstring) : {blank l} + {~ blank l}.
Proof. unfold blank. destruct (trim l); [now left|right; discriminate]. Qed.

(** The loop never forgets a bound it has reached. *)
Lemma fold_least_acc (ls : list jsstring) (m : Z) :
  exists m', fold_left leastIndentStep ls (Some m) = Some m' /\ m' <= m.
Proof.
  revert m. induction ls as [|l rest IH]; intros m; simpl.
  - exists m. split; [reflexivity|lia].
  - destruct (blank_dec l) as [B|B].
    + rewrite leastIndentStep_blank by assumption. apply IH.
    + rewrite leastIndentStep_occupied by assumption.
      destruct (IH (Z.min (getStringLeftIndentLength l) m)) as [m' [E Hle]].
      exists m'. split; [assumption|lia].
Qed.

Lemma fold_least_lower (ls : list jsstring) (acc : option Z) (m : Z) :
  fold_left leastIndentStep ls acc = Some m ->
  forall l, In l ls -> ~ blank l -> m <= getStringLeftIndentLength l.
Proof.
  revert acc. induction ls as [|x rest IH]; intros acc E l Hin Hl;
    [contradiction|].
  simpl in E. destruct Hin as [->|Hin].
  - rewrite leastIndentStep_occupied in E by assumption.
    match type of E with
    | fold_left _ _ (Some ?b) = _ => destruct (fold_least_acc rest b) as [m' [E' Hle]]
    end.
    rewrite E' in E. injection E as <-. destruct acc; lia.
  - eapply IH; eassumption.
Qed.

Lemma fold_least_attained (ls : list jsstring) (acc : option Z) (m : Z) :
  fold_left leastIndentStep ls acc = Some m ->
  acc = Some m \/
  exists l, In l ls /\ ~ blank l /\ getStringLeftIndentLength l = m.
Proof.
  revert acc. induction ls as [|x rest IH]; intros acc E; simpl in E.
  - now left.
  - destruct (IH _ E) as [Hacc|[l [Hin [Hl Hm]]]].
    + destruct (blank_dec x) as [B|B].
      * rewrite leastIndentStep_blank in Hacc by assumption. now left.
      * rewrite leastIndentStep_occupied in Hacc by assumption.
        injection Hacc as Hacc. destruct acc as [a|].
        -- destruct (Z.min_spec (getStringLeftIndentLength x) a)
             as [[_ Hmin]|[_ Hmin]]; rewrite Hmin in Hacc.
           ++ right. exists x. simpl. auto.
           ++ left. now subst.
        -- right. exists x. simpl. auto.
    + right. exists l. simpl. auto.
Qed.

Lemma fold_least_none (ls : list jsstring) :
  fold_left leastIndentStep ls None = None <-> Forall blank ls.
Proof.
  induction ls as [|x rest IH]; simpl.
  - split; [constructor|reflexivity].
  - destruct (blank_dec x) as [B|B].
    + rewrite leastIndentStep_blank by assumption. split; intros H.
      * constructor; [assumption|now apply IH].
      * apply IH. now inversion H.
    + rewrite leastIndentStep_occupied by assumption. split; intros H.
      * destruct (fold_least_acc rest (getStringLeftIndentLength x))
          as [m' [E _]]. congruence.
      * inversion H; contradiction.
Qed.

Lemma computeLeastIndent_lower (en : bool) (ls : list jsstring) (m : Z) :
  computeLeastIndent en ls = Some m ->
  forall l, In l ls -> ~ blank l -> m <= getStringLeftIndentLength l.
Proof.
  unfold computeLeastIndent. destruct en; [|discriminate].
  apply fold_least_lower.
Qed.

Lemma computeLeastIndent_attained (en : bool) (ls : list jsstring) (m : Z) :
  computeLeastIndent en ls = Some m ->
  exists l, In l ls /\ ~ blank l /\ getStringLeftIndentLength l = m.
Proof.
  unfold computeLeastIndent. destruct en; [|discriminate].
  intros E. destruct (fold_least_attained _ _ _ E) as [H|H];
    [discriminate|assumption].
Qed.

Lemma computeLeastIndent_some (ls : list jsstring) (l : jsstring) :
  In l ls -> ~ blank l -> exists m, computeLeastIndent true ls = Some m.
Proof.
  intros Hin Hl. simpl.
  destruct (fold_left leastIndentStep ls None) as [m|] eqn:E; [eauto|].
  apply fold_least_none in E. rewrite Forall_forall in E.
  exfalso. apply Hl. now apply E.
Qed.

(** The minimum is characterised by its two properties. *)
Lemma computeLeastIndent_unique (ls : list jsstring) (l : jsstring) (m : Z) :
  In l ls -> ~ blank l -> getStringLeftIndentLength l = m ->
  (forall x, In x ls -> ~ blank x -> m <= getStringLeftIndentLength x) ->
  computeLeastIndent true ls = Some m.
Proof.
  intros Hin Hl Hm Hlow.
  destruct (computeLeastIndent_some ls l Hin Hl) as [m' E].
  rewrite E. f_equal.
  pose proof (computeLeastIndent_lower _ _ _ E l Hin Hl) as H1.
  destruct (computeLeastIndent_attained _ _ _ E) as [x [Hx [Bx Ex]]].
  pose proof (Hlow x Hx Bx) as H2. lia.
Qed.

(** ** The per-line pass *)

Lemma one_lt_len_not_blank (l : jsstring) : 1 < len (trim l) -> ~ blank l.
Proof. unfold blank. intros H E. rewrite E in H. discriminate. Qed.

Lemma lineValue_ok (en : bool) (least : option Z) (l : jsstring) :
  (forall m, least = Some m -> 1 < len (trim l) ->
             m <= getStringLeftIndentLength l) ->
  lineValue en least l = Ok (lineOut en least l).
Proof.
  intros H. unfold lineValue, lineOut. destruct least as [m|]; [|reflexivity].
  destruct (1 <? len (trim l)) eqn:E; simpl; [|reflexivity].
  destruct en; simpl; [|reflexivity].
  apply Z.ltb_lt in E. specialize (H m eq_refl E).
  unfold repeat_space.
  destruct (getStringLeftIndentLength l - m <? 0) eqn:C; [|reflexivity].
  apply Z.ltb_lt in C. lia.
Qed.

Lemma lineValue_split_ok (en : bool) (ls : list jsstring) (l : jsstring) :
  In l ls ->
  lineValue en (computeLeastIndent en ls) l =
  Ok (lineOut en (computeLeastIndent en ls) l).
Proof.
  intros Hin. apply lineValue_ok. intros m E H.
  eapply computeLeastIndent_lower; eauto using one_lt_len_not_blank.
Qed.

Lemma lineOut_nil_iff (en : bool) (least : option Z) (l : jsstring) :
  lineOut en least l = [] <-> blank l.
Proof.
  unfold lineOut, blank. destruct least as [m|]; [|tauto].
  destruct (1 <? len (trim l)) eqn:E; simpl; [|tauto].
  destruct en; [|tauto].
  apply Z.ltb_lt in E. split; intros H.
  - apply app_eq_nil in H. tauto.
  - rewrite H in E. discriminate.
Qed.


Lemma lineOut_disabled (least : option Z) (l : jsstring) :
  lineOut false least l = trim l.
Proof.
  unfold lineOut. destruct least; [|reflexivity].
  now rewrite andb_false_r.
Qed.

Lemma lineOut_trimRight (en : bool) (least : option Z) (l : jsstring) :
  trimRight (lineOut en least l) = lineOut en least l.
Proof.
  unfold lineOut. destruct least as [m|]; [|apply trim_trimRight].
  destruct (1 <? len (trim l)) eqn:E; simpl; [|apply trim_trimRight].
  destruct en; [|apply trim_trimRight].
  apply trimRight_padded. apply Z.ltb_lt in E.
  now apply one_lt_len_not_blank.
Qed.

Lemma lineOut_trim (en : bool) (least : option Z) (l : jsstring) :
  trim (lineOut en least l) = trim l.
Proof.
  unfold lineOut. destruct least as [m|]; [|apply trim_idem].
  destruct (1 <? len (trim l)) eqn:E; simpl; [|apply trim_idem].
  destruct en; [|apply trim_idem].
  apply trim_padded. apply Z.ltb_lt in E. now apply one_lt_len_not_blank.
Qed.

Lemma mapLines_spec (en : bool) (least : option Z) (ls : list jsstring) :
  (forall l, In l ls -> lineValue en least l = Ok (lineOut en least l)) ->
  forall idx st,
    mapLines en least idx st ls =
    Ok (map (lineOut en least) ls,
        occupiedAfter idx st (map (lineOut en least) ls)).
Proof.
  induction ls as [|l rest IH]; intros Hok idx st.
  - destruct st as [[i|] j]; reflexivity.
  - simpl mapLines. rewrite Hok by now left. simpl bind.
    rewrite IH by (intros; apply Hok; now right). simpl.
    f_equal. f_equal. unfold occupiedAfter, bookkeep. simpl.
    destruct (0 <? len (lineOut en least l)); simpl.
    all: destruct (firstOccupiedLineIdx st);
      destruct (lastOcc (S idx) (map (lineOut en least) rest)); reflexivity.
Qed.

Lemma resultArrPreLeadTrail_spec (c : Config) (ls : list jsstring) :
  resultArrPreLeadTrail c ls =
  Ok (outLines c ls,
      mkOccupied (firstOcc 0 (outLines c ls)) (lastOcc 0 (outLines c ls))).
Proof.
  unfold resultArrPreLeadTrail. rewrite mapLines_spec.
  - unfold occupiedAfter, outLines. simpl.
    destruct (lastOcc 0 _); reflexivity.
  - intros l Hin. now apply lineValue_split_ok.
Qed.

(** ** The occupied-line indices and the vertical trimming *)

Lemma len_pos_iff (r : jsstring) : (0 <? len r) = true <-> r <> [].
Proof.
  rewrite Z.ltb_lt. unfold len. destruct r; simpl; split; intros H;
    try congruence; try lia.
Qed.

Lemma len_pos_false_iff (r : jsstring) : (0 <? len r) = false <-> r = [].
Proof.
  rewrite Z.ltb_ge. unfold len. destruct r; simpl; split; intros H;
    try congruence; try lia.
Qed.

Lemma firstOcc_none (idx : nat) (rs : list jsstring) :
  firstOcc idx rs = None <-> Forall (fun r => r = []) rs.
Proof.
  revert idx. induction rs as [|r t IH]; intros idx; simpl.
  - split; [constructor|reflexivity].
  - destruct (0 <? len r) eqn:E.
    + apply len_pos_iff in E. split; [discriminate|].
      intros H. inversion H; contradiction.
    + apply len_pos_false_iff in E. rewrite IH. split; intros H.
      * constructor; assumption.
      * now inversion H.
Qed.

Lemma lastOcc_none (idx : nat) (rs : list jsstring) :
  lastOcc idx rs = None <-> Forall (fun r => r = []) rs.
Proof.
  revert idx. induction rs as [|r t IH]; intros idx; simpl.
  - split; [constructor|reflexivity].
  - destruct (lastOcc (S idx) t) as [j|] eqn:L.
    + split; [discriminate|]. intros H. inversion H; subst.
      apply (IH (S idx)) in H3. congruence.
    + apply (IH (S idx)) in L. destruct (0 <? len r) eqn:E.
      * apply len_pos_iff in E. split; [discriminate|].
        intros H. inversion H; contradiction.
      * apply len_pos_false_iff in E. split; [|reflexivity].
        intros _. constructor; assumption.
Qed.

Lemma firstOcc_lastOcc (idx : nat) (rs : list jsstring) (f : nat) :
  firstOcc idx rs = Some f -> exists l, lastOcc idx rs = Some l.
Proof.
  intros F. destruct (lastOcc idx rs) as [l|] eqn:L; [eauto|].
  apply lastOcc_none, (firstOcc_none idx) in L. congruence.
Qed.

Lemma dropBack_nil (rs : list jsstring) :
  dropBack rs = [] <-> Forall (fun r => r = []) rs.
Proof.
  induction rs as [|r t IH]; simpl.
  - split; [constructor|reflexivity].
  - destruct (dropBack t) as [|x t'] eqn:D.
    + destruct (0 <? len r) eqn:E.
      * apply len_pos_iff in E. split; [discriminate|].
        intros H. inversion H; contradiction.
      * apply len_pos_false_iff in E. split; [|reflexivity].
        intros _. constructor; [assumption|now apply IH].
    + split; [discriminate|]. intros H. inversion H; subst.
      apply IH in H3. discriminate.
Qed.

Lemma firstOcc_dropFront (rs : list jsstring) :
  forall idx f, firstOcc idx rs = Some f ->
    (idx <= f)%nat /\ skipn (f - idx) rs = dropFront rs.
Proof.
  induction rs as [|r t IH]; intros idx f; simpl; [discriminate|].
  destruct (0 <? len r).
  - intros [= <-]. rewrite Nat.sub_diag. split; [lia|reflexivity].
  - intros F. destruct (IH _ _ F) as [Hle E]. split; [lia|].
    replace (f - idx)%nat with (S (f - S idx)) by lia. exact E.
Qed.

Lemma lastOcc_dropBack (rs : list jsstring) :
  forall idx l, lastOcc idx rs = Some l ->
    (idx <= l)%nat /\ firstn (l + 1 - idx) rs = dropBack rs.
Proof.
  induction rs as [|r t IH]; intros idx l; simpl; [discriminate|].
  destruct (lastOcc (S idx) t) as [j|] eqn:L.
  - intros [= <-]. destruct (IH _ _ L) as [Hle E]. split; [lia|].
    replace (j + 1 - idx)%nat with (S (j + 1 - S idx)) by lia.
    simpl. rewrite E. destruct (dropBack t) eqn:D; [|reflexivity].
    apply dropBack_nil, (lastOcc_none (S idx)) in D. congruence.
  - apply lastOcc_none, dropBack_nil in L. rewrite L.
    destruct (0 <? len r); [|discriminate].
    intros [= <-]. split; [lia|].
    replace (idx + 1 - idx)%nat with 1%nat by lia. reflexivity.
Qed.

Lemma lastOcc_dropFront (rs : list jsstring) :
  forall idx f l, firstOcc idx rs = Some f -> lastOcc idx rs = Some l ->
    lastOcc f (dropFront rs) = Some l.
Proof.
  induction rs as [|r t IH]; intros idx f l; [discriminate|].
  simpl firstOcc. simpl dropFront. destruct (0 <? len r) eqn:E.
  - intros [= <-]. trivial.
  - simpl lastOcc. rewrite E. intros F L. apply (IH (S idx)); [assumption|].
    destruct (lastOcc (S idx) t); [assumption|discriminate].
Qed.

Lemma verticalTrim_spec (c : Config) (rs : list jsstring) (f l : nat) :
  firstOcc 0 rs = Some f -> lastOcc 0 rs = Some l ->
  verticalTrim c f l rs = vtrim c rs.
Proof.
  intros F L. unfold verticalTrim, vtrim, slice, slice_from.
  destruct (firstOcc_dropFront _ _ _ F) as [_ EF].
  destruct (lastOcc_dropBack _ _ _ L) as [_ EL].
  pose proof (lastOcc_dropFront _ _ _ _ F L) as LF.
  destruct (lastOcc_dropBack _ _ _ LF) as [_ ELF].
  rewrite Nat.sub_0_r in EF, EL.
  destruct (trimVerticalStart c), (trimVerticalEnd c); simpl.
  - rewrite EF. exact ELF.
  - exact EF.
  - rewrite Nat.sub_0_r. exact EL.
  - reflexivity.
Qed.

(** The embedding never throws, and computes [trimLinesPure]. *)
Lemma trimLinesWith_spec (c : Config) (str : jsstring) :
  trimLinesWith c str = Ok (trimLinesPure c str).
Proof.
  unfold trimLinesWith, trimLinesPure.
  rewrite resultArrPreLeadTrail_spec. simpl.
  destruct (firstOcc 0 (outLines c (split str))) as [f|] eqn:F; [|reflexivity].
  destruct (firstOcc_lastOcc _ _ _ F) as [l L]. rewrite L.
  now rewrite (verticalTrim_spec c _ f l).
Qed.

Lemma trimLines_spec (str : jsstring) (config : option PartialConfig) :
  trimLines str config = Ok (trimLinesPure (resolve config) str).
Proof. apply trimLinesWith_spec. Qed.

Lemma in_dropFront (rs : list jsstring) (x : jsstring) :
  In x rs -> x <> [] -> In x (dropFront rs).
Proof.
  induction rs as [|r t IH]; simpl; [tauto|].
  intros Hin Hx. destruct (0 <? len r) eqn:E; [exact Hin|].
  apply len_pos_false_iff in E. destruct Hin as [->|Hin]; [contradiction|auto].
Qed.

Lemma in_dropBack (rs : list jsstring) (x : jsstring) :
  In x rs -> x <> [] -> In x (dropBack rs).
Proof.
  induction rs as [|r t IH]; simpl; [tauto|].
  intros Hin Hx. destruct Hin as [->|Hin].
  - destruct (dropBack t); [|now left].
    apply len_pos_iff in Hx. rewrite Hx. now left.
  - specialize (IH Hin Hx). destruct (dropBack t); [contradiction|now right].
Qed.

Lemma in_vtrim (c : Config) (rs : list jsstring) (x : jsstring) :
  In x rs -> x <> [] -> In x (vtrim c rs).
Proof.
  intros Hin Hx. unfold vtrim.
  destruct (trimVerticalStart c), (trimVerticalEnd c);
    auto using in_dropFront, in_dropBack.
Qed.

Lemma incl_dropFront (rs : list jsstring) : incl (dropFront rs) rs.
Proof.
  induction rs as [|r t IH]; simpl; [apply incl_refl|].
  destruct (0 <? len r); [apply incl_refl|now apply incl_tl].
Qed.

Lemma incl_dropBack (rs : list jsstring) : incl (dropBack rs) rs.
Proof.
  induction rs as [|r t IH]; simpl; [apply incl_refl|].
  destruct (dropBack t) as [|x t'].
  - destruct (0 <? len r); intros y Hy; simpl in *; tauto.
  - intros y [<-|Hy]; [now left|right; now apply IH].
Qed.

Lemma incl_vtrim (c : Config) (rs : list jsstring) : incl (vtrim c rs) rs.
Proof.
  unfold vtrim. destruct (trimVerticalStart c), (trimVerticalEnd c);
    eauto using incl_refl, incl_dropFront, incl_dropBack, incl_tran.
Qed.

Lemma outLines_noNewline (c : Config) (ls : list jsstring) :
  Forall noNewline ls -> Forall noNewline (outLines c ls).
Proof.
  intros H. unfold outLines. apply Forall_map.
  eapply Forall_impl; [|exact H]. intros l. apply noNewline_lineOut.
Qed.

Lemma firstOcc_some_in (rs : list jsstring) :
  forall idx f, firstOcc idx rs = Some f -> exists r, In r rs /\ r <> [].
Proof.
  induction rs as [|r t IH]; intros idx f; simpl; [discriminate|].
  destruct (0 <? len r) eqn:E.
  - intros _. apply len_pos_iff in E. exists r. auto.
  - intros F. destruct (IH _ _ F) as [x [Hin Hx]]. exists x. auto.
Qed.

(** The lines of the output are the vertically trimmed lines. *)
Lemma split_trimLinesPure (c : Config) (str : jsstring) (f : nat) :
  firstOcc 0 (outLines c (split str)) = Some f ->
  split (trimLinesPure c str) = vtrim c (outLines c (split str)).
Proof.
  intros F. unfold trimLinesPure. rewrite F.
  destruct (firstOcc_some_in _ _ _ F) as [r [Hin Hr]].
  apply split_join.
  - intros E. apply (in_vtrim c) in Hin; [|assumption].
    rewrite E in Hin. contradiction.
  - eapply incl_Forall; [apply incl_vtrim|].
    apply outLines_noNewline, split_noNewline.
Qed.

Lemma trimLinesPure_blank (c : Config) (str : jsstring) :
  firstOcc 0 (outLines c (split str)) = None -> trimLinesPure c str = [].
Proof. intros F. unfold trimLinesPure. now rewrite F. Qed.

Lemma outLines_in (c : Config) (ls : list jsstring) (r : jsstring) :
  In r (outLines c ls) ->
  exists l, In l ls /\
    r = lineOut (trimLeftToLeastIndent c)
          (computeLeastIndent (trimLeftToLeastIndent c) ls) l.
Proof.
  unfold outLines. intros H. apply in_map_iff in H.
  destruct H as [l [E Hin]]. eauto.
Qed.

Lemma split_allWhite_inv (s : jsstring) :
  Forall allWhite (split s) -> allWhite s.
Proof.
  unfold allWhite. induction s as [|c t IH]; simpl; [constructor|].
  destruct (c =? newline)%N eqn:E.
  - apply N.eqb_eq in E. subst c. intros H. inversion H; subst.
    constructor; [reflexivity|auto].
  - pose proof (split_not_nil t) as Hne.
    destruct (split t) as [|l ls]; [congruence|]. simpl.
    intros H. inversion H as [|? ? Hcl Hls]; subst.
    inversion Hcl; subst. constructor; [assumption|].
    apply IH. constructor; assumption.
Qed.

Lemma firstOcc_outLines_none (c : Config) (str : jsstring) :
  firstOcc 0 (outLines c (split str)) = None <-> allWhite str.
Proof.
  rewrite firstOcc_none. split; intros H.
  - apply split_allWhite_inv. apply Forall_forall. intros l Hl.
    apply blank_iff_allWhite. rewrite Forall_forall in H.
    eapply lineOut_nil_iff. apply H. unfold outLines.
    apply in_map. exact Hl.
  - apply Forall_forall. intros r Hr.
    destruct (outLines_in _ _ _ Hr) as [l [Hl ->]].
    apply lineOut_nil_iff, blank_iff_allWhite.
    apply split_allWhite in H. rewrite Forall_forall in H. auto.
Qed.

Lemma lineOut_at_least (en : bool) (l : jsstring) :
  lineOut en (Some (getStringLeftIndentLength l)) l = trim l.
Proof.
  unfold lineOut. rewrite Z.sub_diag.
  destruct (_ && _); reflexivity.
Qed.

Lemma trim_not_blank (l : jsstring) : ~ blank l -> ~ blank (trim l).
Proof. unfold blank. now rewrite trim_idem. Qed.

(** With re-indentation on, some occupied line of the result starts at
    column 0. *)
Lemma vtrim_outLines_zero (c : Config) (ls : list jsstring) (f : nat) :
  trimLeftToLeastIndent c = true ->
  firstOcc 0 (outLines c ls) = Some f ->
  exists r, In r (vtrim c (outLines c ls)) /\ ~ blank r /\
            getStringLeftIndentLength r = 0.
Proof.
  intros En F.
  destruct (firstOcc_some_in _ _ _ F) as [r0 [Hin0 Hr0]].
  destruct (outLines_in _ _ _ Hin0) as [l [Hl E0]].
  assert (Bl : ~ blank l).
  { intros B. apply Hr0. rewrite E0. now apply lineOut_nil_iff. }
  rewrite En in *.
  destruct (computeLeastIndent_some _ _ Hl Bl) as [m Em].
  destruct (computeLeastIndent_attained _ _ _ Em) as [l1 [Hl1 [Bl1 E1]]].
  exists (trim l1). split; [|split].
  - apply in_vtrim; [|exact Bl1].
    unfold outLines. rewrite En, Em, <- E1, <- (lineOut_at_least true l1).
    apply in_map. exact Hl1.
  - now apply trim_not_blank.
  - apply indent_trimmed.
Qed.

Lemma isMinIndent_compute (ls : list jsstring) (m : Z) :
  isMinIndent ls m -> computeLeastIndent true ls = Some m.
Proof.
  intros [[l [Hin [Hl Hm]]] Hlow].
  eapply computeLeastIndent_unique; eassumption.
Qed.

Lemma outLines_length (c : Config) (ls : list jsstring) :
  List.length (outLines c ls) = List.length ls.
Proof. unfold outLines. apply length_map. Qed.

Lemma lineOut_occupied (en : bool) (least : option Z) (l : jsstring) :
  (0 <? len (lineOut en least l)) = (0 <? len (trim l)).
Proof.
  destruct (0 <? len (trim l)) eqn:E.
  - apply len_pos_iff. apply len_pos_iff in E.
    intros H. apply E. now apply lineOut_nil_iff in H.
  - apply len_pos_false_iff. apply len_pos_false_iff in E.
    now apply lineOut_nil_iff.
Qed.

Lemma firstOcc_leadingBlank (en : bool) (least : option Z)
  (ls : list jsstring) :
  forall idx f, firstOcc idx (map (lineOut en least) ls) = Some f ->
    f = (idx + leadingBlank ls)%nat.
Proof.
  induction ls as [|l rest IH]; intros idx f; simpl; [discriminate|].
  rewrite lineOut_occupied. destruct (0 <? len (trim l)).
  - intros [= <-]. lia.
  - intros F. apply IH in F. lia.
Qed.

Lemma dropBack_prefix (rs : list jsstring) :
  exists n, dropBack rs = firstn n rs.
Proof.
  induction rs as [|r t [n IH]]; [exists 0%nat; reflexivity|].
  simpl. destruct (dropBack t) as [|x t'] eqn:D.
  - destruct (0 <? len r); [exists 1%nat|exists 0%nat]; reflexivity.
  - exists (S n). simpl. now rewrite IH.
Qed.

Lemma nth_error_dropBack (rs : list jsstring) (i : nat) (r : jsstring) :
  nth_error (dropBack rs) i = Some r -> nth_error rs i = Some r.
Proof.
  destruct (dropBack_prefix rs) as [n ->].
  rewrite nth_error_firstn. destruct (i <? n)%nat; [auto|discriminate].
Qed.

Lemma nth_error_vtrim (c : Config) (rs : list jsstring) (f i : nat)
  (r : jsstring) :
  firstOcc 0 rs = Some f ->
  nth_error (vtrim c rs) i = Some r ->
  nth_error rs ((if trimVerticalStart c then f else 0%nat) + i) = Some r.
Proof.
  intros F. destruct (firstOcc_dropFront _ _ _ F) as [_ EF].
  rewrite Nat.sub_0_r in EF. unfold vtrim.
  destruct (trimVerticalStart c), (trimVerticalEnd c); intros H;
    try apply nth_error_dropBack in H;
    try (rewrite <- EF, nth_error_skipn in H); exact H.
Qed.

(** Line [i] of the output is line [lineOffset + i] of the per-line pass. *)
Lemma out_line_source (c : Config) (str : jsstring) (f i : nat)
  (r : jsstring) :
  firstOcc 0 (outLines c (split str)) = Some f ->
  nth_error (split (trimLinesPure c str)) i = Some r ->
  nth_error (outLines c (split str)) (lineOffset c (split str) + i) = Some r.
Proof.
  intros F H. rewrite (split_trimLinesPure _ _ _ F) in H.
  apply (nth_error_vtrim _ _ _ _ _ F) in H.
  unfold lineOffset. destruct (trimVerticalStart c); [|exact H].
  unfold outLines in F. apply firstOcc_leadingBlank in F.
  simpl in F. now rewrite <- F.
Qed.

Lemma nth_error_outLines (c : Config) (ls : list jsstring) (i : nat) :
  nth_error (outLines c ls) i =
  option_map (lineOut (trimLeftToLeastIndent c)
                (computeLeastIndent (trimLeftToLeastIndent c) ls))
    (nth_error ls i).
Proof. unfold outLines. apply nth_error_map. Qed.

(** ** Running the function on its own output *)

Lemma lineOut_again (en : bool) (least : option Z) (l : jsstring) :
  lineOut true (Some 0) (lineOut en least l) = lineOut en least l.
Proof.
  unfold lineOut at 1. rewrite lineOut_trim, andb_true_r, Z.sub_0_r.
  unfold lineOut. destruct least as [m|].
  - destruct (1 <? len (trim l)) eqn:E; simpl; [|reflexivity].
    destruct en.
    + now rewrite indent_padded, Nat2Z.id.
    + now rewrite indent_trimmed.
  - destruct (1 <? len (trim l)); [|reflexivity].
    now rewrite indent_trimmed.
Qed.

Lemma lineOut_disabled_again (least least' : option Z) (l : jsstring) :
  lineOut false least' (lineOut false least l) = lineOut false least l.
Proof. rewrite !lineOut_disabled. apply trim_idem. Qed.

Lemma dropFront_head (rs : list jsstring) :
  dropFront rs = [] \/ exists r t, dropFront rs = r :: t /\ r <> [].
Proof.
  induction rs as [|r t IH]; simpl; [now left|].
  destruct (0 <? len r) eqn:E; [|exact IH].
  right. exists r, t. split; [reflexivity|now apply len_pos_iff].
Qed.

Lemma dropFront_fixed (r : jsstring) (t : list jsstring) :
  r <> [] -> dropFront (r :: t) = r :: t.
Proof. intros H. apply len_pos_iff in H. simpl. now rewrite H. Qed.

Lemma dropBack_cons_occupied (r : jsstring) (t : list jsstring) :
  r <> [] -> exists t', dropBack (r :: t) = r :: t'.
Proof.
  intros H. apply len_pos_iff in H. simpl. rewrite H.
  destruct (dropBack t); eauto.
Qed.

Lemma dropFront_idem (rs : list jsstring) :
  dropFront (dropFront rs) = dropFront rs.
Proof.
  destruct (dropFront_head rs) as [->|[r [t [-> H]]]]; [reflexivity|].
  now apply dropFront_fixed.
Qed.

Lemma dropBack_idem (rs : list jsstring) : dropBack (dropBack rs) = dropBack rs.
Proof.
  induction rs as [|r t IH]; simpl; [reflexivity|].
  destruct (dropBack t) as [|x t'] eqn:D.
  - destruct (0 <? len r) eqn:E; simpl; [now rewrite E|reflexivity].
  - change (dropBack (r :: x :: t')) with
      (match dropBack (x :: t') with
       | [] => if 0 <? len r then [r] else []
       | y :: u => r :: y :: u
       end).
    now rewrite IH.
Qed.

Lemma dropFront_dropBack_dropFront (rs : list jsstring) :
  dropFront (dropBack (dropFront rs)) = dropBack (dropFront rs).
Proof.
  destruct (dropFront_head rs) as [->|[r [t [-> H]]]]; [reflexivity|].
  destruct (dropBack_cons_occupied r t H) as [t' ->].
  now apply dropFront_fixed.
Qed.

Lemma vtrim_idem (c : Config) (rs : list jsstring) :
  vtrim c (vtrim c rs) = vtrim c rs.
Proof.
  unfold vtrim. destruct (trimVerticalStart c), (trimVerticalEnd c).
  - rewrite dropFront_dropBack_dropFront. apply dropBack_idem.
  - apply dropFront_idem.
  - apply dropBack_idem.
  - reflexivity.
Qed.

(** The per-line pass leaves the lines of an output as they are. *)
Lemma outLines_vtrim_fixed (c : Config) (ls : list jsstring) (f : nat) :
  firstOcc 0 (outLines c ls) = Some f ->
  outLines c (vtrim c (outLines c ls)) = vtrim c (outLines c ls).
Proof.
  intros F. unfold outLines at 1.
  rewrite <- (map_id (vtrim c (outLines c ls))) at 3.
  apply map_ext_in. intros r Hr.
  apply incl_vtrim in Hr. destruct (outLines_in _ _ _ Hr) as [l [_ ->]].
  destruct (trimLeftToLeastIndent c) eqn:En.
  - destruct (vtrim_outLines_zero c ls f En F) as [r0 [H0 [B0 E0]]].
    rewrite (isMinIndent_compute (vtrim c (outLines c ls)) 0).
    + apply lineOut_again.
    + split; [eauto|]. intros x _ _. apply indent_nonneg.
  - apply lineOut_disabled_again.
Qed.

Lemma trimLinesPure_nil (c : Config) : trimLinesPure c [] = [].
Proof. unfold trimLinesPure, outLines. simpl. now rewrite lineOut_occupied. Qed.

(** Under every configuration, the output is a fixed point. *)
Lemma trimLinesPure_idem (c : Config) (str : jsstring) :
  trimLinesPure c (trimLinesPure c str) = trimLinesPure c str.
Proof.
  destruct (firstOcc 0 (outLines c (split str))) as [f|] eqn:F.
  - unfold trimLinesPure at 1.
    rewrite (split_trimLinesPure _ _ _ F), (outLines_vtrim_fixed _ _ _ F).
    destruct (firstOcc_some_in _ _ _ F) as [r [Hin Hr]].
    apply (in_vtrim c) in Hin; [|exact Hr].
    destruct (firstOcc 0 (vtrim c (outLines c (split str)))) as [g|] eqn:G.
    + rewrite vtrim_idem. unfold trimLinesPure. now rewrite F.
    + apply firstOcc_none in G. rewrite Forall_forall in G.
      apply G in Hin. contradiction.
  - rewrite (trimLinesPure_blank _ _ F). apply trimLinesPure_nil.
Qed.

(** ** The scenarios of the specification, evaluated *)

Example lit_code_units :
  lit "  a
b" = [32; 32; 97; 10; 98]%N.
Proof. reflexivity. Qed.

Example scenario_hello_world :
  trimLines (lit "  hello" ++ newline :: lit "    world" ++ [newline])
    defaultConfig
  = Ok (lit "hello" ++ newline :: lit "  world").
Proof. vm_compute. reflexivity. Qed.

Example scenario_all_whitespace :
  trimLines (lit "   ") (Some (mkPartialConfig (Some false) (Some false) None))
  = Ok [].
Proof. vm_compute. reflexivity. Qed.

Example scenario_keep_all_lines :
  trimLines (lit "a" ++ newline :: lit "b")
    (Some (mkPartialConfig None (Some false) (Some false)))
  = Ok (lit "a" ++ newline :: lit "b").
Proof. vm_compute. reflexivity. Qed.

Example scenario_keep_leading_lines :
  trimLines (newline :: newline :: lit "foo" ++ [newline; newline])
    (Some (mkPartialConfig None (Some false) None))
  = Ok (newline :: newline :: lit "foo").
Proof. vm_compute. reflexivity. Qed.

(** ** The claims *)

(** C1: for every input made only of whitespace characters and newlines
    (the empty string included) and every configuration, given in full, in
    part or omitted, [trimLines] returns the empty string. *)
Theorem trimLines_whitespace_only (str : jsstring)
  (config : option PartialConfig) :
  allWhite str -> trimLines str config = Ok [].
Proof.
  intros H. rewrite trimLines_spec. f_equal.
  apply trimLinesPure_blank. now apply firstOcc_outLines_none.
Qed.

Lemma trimLines_whitespace_only_witness :
  allWhite [32; 9; 10; 13; 32; 10; 160]%N /\
  trimLines [32; 9; 10; 13; 32; 10; 160]%N
    (Some (mkPartialConfig (Some true) None (Some false))) = Ok [].
Proof.
  assert (H : allWhite [32; 9; 10; 13; 32; 10; 160]%N)
    by (unfold allWhite; repeat constructor).
  split; [exact H|].
  apply (trimLines_whitespace_only _ _ H).
Defined.

(** C2: [trimLines] is total: for every input and configuration it returns
    a string and does not throw; in the re-indentation branch [totalIndent],
    the leading-whitespace run length of the line minus the least indent, is
    not negative, so [repeat] is applied to a valid count and returns. *)
Theorem trimLines_total (str : jsstring) (config : option PartialConfig) :
  (exists out, trimLines str config = Ok out) /\
  (forall l least,
      In l (split str) ->
      computeLeastIndent (trimLeftToLeastIndent (resolve config)) (split str)
        = Some least ->
      1 < len (trim l) ->
      0 <= getStringLeftIndentLength l - least /\
      exists pad, repeat_space (getStringLeftIndentLength l - least) = Ok pad).
Proof.
  split.
  - eexists. apply trimLines_spec.
  - intros l least Hin E H.
    assert (Hle : least <= getStringLeftIndentLength l).
    { eapply computeLeastIndent_lower; eauto using one_lt_len_not_blank. }
    split; [lia|]. unfold repeat_space.
    destruct (getStringLeftIndentLength l - least <? 0) eqn:C; [|eauto].
    apply Z.ltb_lt in C. lia.
Qed.

(** C3: with [trimLeftToLeastIndent] enabled, if the output has a line that
    is not blank, then the least leading-whitespace run length over the
    lines of the output that are not blank is exactly 0 (and the loop of the
    source, run on the output, finds 0). *)
Theorem trimLines_min_indent_zero (str : jsstring)
  (config : option PartialConfig) (out : jsstring) :
  trimLeftToLeastIndent (resolve config) = true ->
  trimLines str config = Ok out ->
  (exists r, In r (split out) /\ ~ blank r) ->
  isMinIndent (split out) 0 /\ computeLeastIndent true (split out) = Some 0.
Proof.
  intros En E [r [Hr Br]]. rewrite trimLines_spec in E. injection E as <-.
  assert (M : isMinIndent (split (trimLinesPure (resolve config) str)) 0).
  { destruct (firstOcc 0 (outLines (resolve config) (split str)))
      as [f|] eqn:F.
    - rewrite (split_trimLinesPure _ _ _ F). split.
      + apply (vtrim_outLines_zero _ _ f); assumption.
      + intros l _ _. apply indent_nonneg.
    - rewrite (trimLinesPure_blank _ _ F) in Hr. simpl in Hr.
      destruct Hr as [<-|[]]. exfalso. apply Br. reflexivity. }
  split; [exact M|now apply isMinIndent_compute].
Qed.

Lemma trimLines_min_indent_zero_witness :
  let str := lit "    a b " ++ newline :: 9%N :: lit "     cd" in
  let config := Some (mkPartialConfig None (Some true) None) in
  let out := lit "a b" ++ newline :: lit "  cd" in
  trimLeftToLeastIndent (resolve config) = true /\
  trimLines str config = Ok out /\
  (exists r, In r (split out) /\ ~ blank r) /\
  isMinIndent (split out) 0 /\ computeLeastIndent true (split out) = Some 0.
Proof.
  intros str config out.
  assert (En : trimLeftToLeastIndent (resolve config) = true) by reflexivity.
  assert (E : trimLines str config = Ok out) by (vm_compute; reflexivity).
  assert (Hr : exists r, In r (split out) /\ ~ blank r).
  { exists (lit "a b"). split; [simpl; auto|].
    unfold blank. vm_compute. discriminate. }
  split; [exact En|]. split; [exact E|]. split; [exact Hr|].
  exact (trimLines_min_indent_zero str config out En E Hr).
Defined.

(** C4, as the code has it: with both vertical options disabled, an input
    that has a character that is not whitespace gives an output with as many
    lines as the input, and an input of whitespace only gives the empty
    string, which has one line; so the two numbers of lines agree exactly
    when the input has a character that is not whitespace or is a single
    line. *)
Theorem trimLines_line_count (str : jsstring) (config : option PartialConfig) :
  trimVerticalStart (resolve config) = false ->
  trimVerticalEnd (resolve config) = false ->
  exists out,
    trimLines str config = Ok out /\
    (~ allWhite str -> lineCount out = lineCount str) /\
    (allWhite str -> out = [] /\ lineCount out = 1%nat) /\
    (lineCount out = lineCount str <->
     ~ allWhite str \/ lineCount str = 1%nat).
Proof.
  intros Vs Ve. eexists. split; [apply trimLines_spec|].
  assert (Hocc : ~ allWhite str ->
                 lineCount (trimLinesPure (resolve config) str)
                 = lineCount str).
  { intros Hs.
    destruct (firstOcc 0 (outLines (resolve config) (split str)))
      as [f|] eqn:F.
    - rewrite <- !split_length, (split_trimLinesPure _ _ _ F).
      unfold vtrim. rewrite Vs, Ve. apply outLines_length.
    - apply firstOcc_outLines_none in F. contradiction. }
  assert (Hwhite : allWhite str ->
                   trimLinesPure (resolve config) str = [] /\
                   lineCount (trimLinesPure (resolve config) str) = 1%nat).
  { intros Hs. apply (firstOcc_outLines_none (resolve config)) in Hs.
    rewrite (trimLinesPure_blank _ _ Hs). split; reflexivity. }
  split; [exact Hocc|]. split; [exact Hwhite|].
  destruct (blank_dec str) as [B|B].
  - apply blank_iff_allWhite in B. destruct (Hwhite B) as [_ H1].
    rewrite H1. split.
    + intros E. right. now symmetry.
    + intros [H|H]; [contradiction|now symmetry].
  - assert (Hs : ~ allWhite str)
      by (intros H; apply B; now apply blank_iff_allWhite).
    split; [now left|]. intros _. now apply Hocc.
Qed.

Lemma trimLines_line_count_witness :
  let str := newline :: lit " a" ++ [newline] in
  let config := Some (mkPartialConfig None (Some false) (Some false)) in
  trimVerticalStart (resolve config) = false /\
  trimVerticalEnd (resolve config) = false /\
  exists out,
    trimLines str config = Ok out /\
    (~ allWhite str -> lineCount out = lineCount str) /\
    (allWhite str -> out = [] /\ lineCount out = 1%nat) /\
    (lineCount out = lineCount str <->
     ~ allWhite str \/ lineCount str = 1%nat).
Proof.
  intros str config.
  split; [reflexivity|]. split; [reflexivity|].
  exact (trimLines_line_count str config eq_refl eq_refl).
Defined.

(** C4 as stated fails: the input of one newline has two lines, and with
    both vertical options disabled the output is the empty string, which
    has one. *)
Lemma trimLines_line_count_counterexample :
  let str := [newline] in
  let config := Some (mkPartialConfig None (Some false) (Some false)) in
  trimVerticalStart (resolve config) = false /\
  trimVerticalEnd (resolve config) = false /\
  trimLines str config = Ok [] /\
  lineCount str = 2%nat /\
  lineCount [] = 1%nat /\
  lineCount [] <> lineCount str.
Proof.
  simpl. repeat split; try reflexivity. vm_compute. discriminate.
Qed.





(** C9: under the default configuration the input of two empty lines,
    [  foo], an empty line, [  bar] and three newlines gives [foo], an empty
    line and [bar]. *)
Theorem trimLines_scenario_blank_blocks :
  trimLines
    (newline :: newline :: lit "  foo" ++ newline :: newline :: lit "  bar"
       ++ [newline; newline; newline])
    defaultConfig
  = Ok (lit "foo" ++ newline :: newline :: lit "bar").
Proof. vm_compute. reflexivity. Qed.

(** C7: with [trimLeftToLeastIndent] disabled, every line of the output that
    is not blank is the corresponding line of the input (the lines dropped
    at the front counted in) with its leading and trailing whitespace
    removed. *)
Theorem trimLines_no_reindent (str : jsstring) (config : option PartialConfig)
  (out : jsstring) (i : nat) (r : jsstring) :
  trimLeftToLeastIndent (resolve config) = false ->
  trimLines str config = Ok out ->
  nth_error (split out) i = Some r ->
  ~ blank r ->
  exists l,
    nth_error (split str) (lineOffset (resolve config) (split str) + i)
    = Some l /\
    r = trim l.
Proof.
  intros En E Hr Br. rewrite trimLines_spec in E. injection E as <-.
  destruct (firstOcc 0 (outLines (resolve config) (split str))) as [f|] eqn:F.
  - apply (out_line_source _ _ _ _ _ F) in Hr.
    rewrite nth_error_outLines in Hr.
    destruct (nth_error (split str) _) as [l|]; [|discriminate].
    exists l. split; [reflexivity|]. simpl in Hr. injection Hr as <-.
    rewrite En. apply lineOut_disabled.
  - rewrite (trimLinesPure_blank _ _ F) in Hr.
    destruct i as [|[|i]]; simpl in Hr; try discriminate.
    injection Hr as <-. exfalso. apply Br. reflexivity.
Qed.

Lemma trimLines_no_reindent_witness :
  let str := newline :: lit "  a " ++ newline :: lit "      b c" in
  let config := Some (mkPartialConfig (Some false) None None) in
  let out := lit "a" ++ newline :: lit "b c" in
  trimLeftToLeastIndent (resolve config) = false /\
  trimLines str config = Ok out /\
  nth_error (split out) 1 = Some (lit "b c") /\
  ~ blank (lit "b c") /\
  exists l,
    nth_error (split str) (lineOffset (resolve config) (split str) + 1)
    = Some l /\
    lit "b c" = trim l.
Proof.
  intros str config out.
  assert (E : trimLines str config = Ok out) by (vm_compute; reflexivity).
  assert (Hr : nth_error (split out) 1 = Some (lit "b c")) by reflexivity.
  assert (Br : ~ blank (lit "b c")) by (unfold blank; vm_compute; discriminate).
  split; [reflexivity|]. split; [exact E|]. split; [exact Hr|].
  split; [exact Br|].
  exact (trimLines_no_reindent str config out 1%nat _ eq_refl E Hr Br).
Defined.

Lemma nth_error_verticalTrim_kept (c : Config) (first last i : nat)
  (rs : list jsstring) :
  keptByVerticalTrim c first last i ->
  nth_error (verticalTrim c first last rs) (outIndex c first i)
  = nth_error rs i.
Proof.
  unfold keptByVerticalTrim, verticalTrim, outIndex, slice, slice_from.
  intros [Hs He].
  destruct (trimVerticalStart c), (trimVerticalEnd c); simpl;
    try specialize (Hs eq_refl); try specialize (He eq_refl).
  - rewrite nth_error_firstn.
    replace (i - first <? last + 1 - first)%nat with true
      by (symmetry; apply Nat.ltb_lt; lia).
    rewrite nth_error_skipn. f_equal. lia.
  - rewrite nth_error_skipn. f_equal. lia.
  - rewrite nth_error_firstn.
    replace (i <? last + 1 - 0)%nat with true
      by (symmetry; apply Nat.ltb_lt; lia).
    reflexivity.
  - reflexivity.
Qed.

(** C10, as the code has it: no line of the output ends in whitespace.  When
    the input has a character that is not whitespace, the two indices of the
    per-line pass are defined, and every line of the input that is
    whitespace only and lies in the range that vertical trimming keeps is in
    the output, at its index in that range, as the empty string.  An input
    of whitespace only gives the empty string, whatever its lines and the
    vertical options. *)
Theorem trimLines_no_trailing_whitespace (str : jsstring)
  (config : option PartialConfig) :
  exists out rs occ,
    trimLines str config = Ok out /\
    resultArrPreLeadTrail (resolve config) (split str) = Ok (rs, occ) /\
    (forall r, In r (split out) -> trimRight r = r) /\
    (~ allWhite str ->
     exists first last,
       firstOccupiedLineIdx occ = Some first /\
       lastOccupiedLineIdx occ = Some last /\
       forall i l,
         nth_error (split str) i = Some l ->
         allWhite l ->
         keptByVerticalTrim (resolve config) first last i ->
         nth_error (split out) (outIndex (resolve config) first i)
         = Some []) /\
    (allWhite str -> out = []).
Proof.
  do 3 eexists. split; [apply trimLines_spec|].
  split; [apply resultArrPreLeadTrail_spec|]. simpl.
  destruct (firstOcc 0 (outLines (resolve config) (split str))) as [f|] eqn:F.
  - destruct (firstOcc_lastOcc _ _ _ F) as [l L].
    split; [|split].
    + intros r Hr. rewrite (split_trimLinesPure _ _ _ F) in Hr.
      apply incl_vtrim in Hr.
      destruct (outLines_in _ _ _ Hr) as [x [_ ->]].
      apply lineOut_trimRight.
    + intros _. exists f, l. split; [reflexivity|]. split; [exact L|].
      intros i x Hx Wx K.
      rewrite (split_trimLinesPure _ _ _ F).
      rewrite <- (verticalTrim_spec _ _ _ _ F L).
      rewrite (nth_error_verticalTrim_kept _ _ _ _ _ K).
      rewrite nth_error_outLines, Hx. simpl. f_equal.
      now apply lineOut_nil_iff, blank_iff_allWhite.
    + intros W. apply (firstOcc_outLines_none (resolve config)) in W.
      congruence.
  - rewrite (trimLinesPure_blank _ _ F). split; [|split].
    + intros r [<-|[]]. reflexivity.
    + intros W. apply firstOcc_outLines_none in F. contradiction.
    + reflexivity.
Qed.

Lemma trimLines_no_trailing_whitespace_witness :
  let str := lit "  " ++ newline :: lit " ab " ++ newline :: [9; 32]%N
               ++ newline :: lit "c" ++ [newline] in
  let config := Some (mkPartialConfig None None (Some false)) in
  exists out,
    trimLines str config = Ok out /\
    ~ allWhite str /\
    nth_error (split str) 2 = Some [9; 32]%N /\
    allWhite [9; 32]%N /\
    keptByVerticalTrim (resolve config) 1 3 2 /\
    nth_error (split out) (outIndex (resolve config) 1 2) = Some [] /\
    (forall r, In r (split out) -> trimRight r = r).
Proof.
  intros str config.
  destruct (trimLines_no_trailing_whitespace str config)
    as [out [rs [occ [E [ER [Ht [Hk _]]]]]]].
  assert (W : ~ allWhite str).
  { intros H. apply blank_iff_allWhite in H. vm_compute in H. discriminate. }
  assert (K : keptByVerticalTrim (resolve config) 1 3 2).
  { split; intros _; lia. }
  assert (Wl : allWhite [9; 32]%N) by (unfold allWhite; repeat constructor).
  exists out. split; [exact E|]. split; [exact W|].
  split; [reflexivity|]. split; [exact Wl|]. split; [exact K|].
  split; [|exact Ht].
  destruct (Hk W) as [first [last [Hf [Hl H]]]].
  vm_compute in ER. injection ER as <- <-.
  simpl in Hf, Hl. injection Hf as <-. injection Hl as <-.
  exact (H 2%nat [9; 32]%N eq_refl Wl K).
Defined.

(** C10 as stated fails: with both vertical options disabled, line 1 of the
    input of a space, a newline and a space is whitespace only and no
    vertical trimming removes it, yet the output is the empty string, which
    has no line 1. *)
Lemma trimLines_no_trailing_whitespace_counterexample :
  let str := [space; newline; space] in
  let config := Some (mkPartialConfig None (Some false) (Some false)) in
  trimVerticalStart (resolve config) = false /\
  trimVerticalEnd (resolve config) = false /\
  nth_error (split str) 1 = Some [space] /\
  allWhite [space] /\
  trimLines str config = Ok [] /\
  nth_error (split []) 1 = None.
Proof.
  simpl. repeat split; try reflexivity.
  unfold allWhite. repeat constructor.
Qed.

(** C5: under the default configuration (config omitted, the three options
    true) [trimLines] is idempotent: applying it to its own result gives
    that result again. *)
Theorem trimLines_idempotent_default (str : jsstring) :
  (out <- trimLines str defaultConfig ;; trimLines out defaultConfig)
  = trimLines str defaultConfig.
Proof.
  rewrite (trimLines_spec str). simpl bind.
  rewrite trimLines_spec. f_equal. apply trimLinesPure_idem.
Qed.

(** ** Further properties of the function *)

Lemma indent_leadingWhite (s : jsstring) :
  len s = Z.of_nat (leadingWhite s) + len (trimLeft s).
Proof.
  unfold len. induction s as [|c t IH]; simpl; [reflexivity|].
  destruct (isWhiteSpace c); simpl List.length; lia.
Qed.

Lemma leadingWhite_prefix (s : jsstring) :
  s = firstn (leadingWhite s) s ++ trimLeft s /\
  allWhite (firstn (leadingWhite s) s).
Proof.
  unfold allWhite. induction s as [|c t [IH1 IH2]]; simpl.
  - split; [reflexivity|constructor].
  - destruct (isWhiteSpace c) eqn:E; simpl.
    + split; [now rewrite <- IH1|now constructor].
    + split; [reflexivity|constructor].
Qed.

(** X1: [getStringLeftIndentLength] is the length of the run of whitespace
    at the front of the string: the string is that run followed by its
    [trimLeft], and the count lies between 0 and the length of the string. *)
Theorem getStringLeftIndentLength_leading_run (s : jsstring) :
  getStringLeftIndentLength s = Z.of_nat (leadingWhite s) /\
  s = firstn (leadingWhite s) s ++ trimLeft s /\
  allWhite (firstn (leadingWhite s) s) /\
  0 <= getStringLeftIndentLength s <= len s.
Proof.
  pose proof (indent_leadingWhite s) as H.
  pose proof (len_nonneg (trimLeft s)) as Hn.
  destruct (leadingWhite_prefix s) as [H1 H2].
  unfold getStringLeftIndentLength. repeat split; try assumption; lia.
Qed.

(** X2: the loop that computes the least indent leaves [null] exactly when
    the option is off or every line is blank, and otherwise the least
    leading-whitespace run length among the lines that are not blank. *)
Theorem computeLeastIndent_is_minimum (enabled : bool) (ls : list jsstring) :
  (computeLeastIndent enabled ls = None <->
   enabled = false \/ Forall blank ls) /\
  (forall m, computeLeastIndent enabled ls = Some m <->
             enabled = true /\ isMinIndent ls m).
Proof.
  split.
  - unfold computeLeastIndent. destruct enabled.
    + rewrite fold_least_none. split; [auto|]. intros [H|H]; [discriminate|auto].
    + split; auto.
  - intros m. split.
    + intros E. split; [destruct enabled; [reflexivity|discriminate]|]. split.
      * eapply computeLeastIndent_attained; eassumption.
      * eapply computeLeastIndent_lower; eassumption.
    + intros [-> M]. now apply isMinIndent_compute.
Qed.

Lemma firstOcc_spec (rs : list jsstring) :
  forall idx f, firstOcc idx rs = Some f ->
    (idx <= f)%nat /\
    (exists r, nth_error rs (f - idx) = Some r /\ r <> []) /\
    (forall i r, (i < f - idx)%nat -> nth_error rs i = Some r -> r = []).
Proof.
  induction rs as [|x t IH]; intros idx f; simpl; [discriminate|].
  destruct (0 <? len x) eqn:E.
  - intros [= <-]. rewrite Nat.sub_diag. split; [lia|]. split.
    + exists x. split; [reflexivity|now apply len_pos_iff].
    + intros i r Hi. lia.
  - intros F. destruct (IH _ _ F) as [Hle [[r [Hr Hne]] Hbefore]].
    apply len_pos_false_iff in E. split; [lia|].
    replace (f - idx)%nat with (S (f - S idx)) by lia. split.
    + exists r. auto.
    + intros [|i] y Hi Hy; simpl in Hy.
      * congruence.
      * apply (Hbefore i); [lia|assumption].
Qed.

Lemma lastOcc_spec (rs : list jsstring) :
  forall idx l, lastOcc idx rs = Some l ->
    (idx <= l)%nat /\
    (exists r, nth_error rs (l - idx) = Some r /\ r <> []) /\
    (forall i r, (l - idx < i)%nat -> nth_error rs i = Some r -> r = []).
Proof.
  induction rs as [|x t IH]; intros idx l; simpl; [discriminate|].
  destruct (lastOcc (S idx) t) as [j|] eqn:L.
  - intros [= <-]. destruct (IH _ _ L) as [Hle [[r [Hr Hne]] Hafter]].
    split; [lia|]. replace (j - idx)%nat with (S (j - S idx)) by lia. split.
    + exists r. auto.
    + intros [|i] y Hi Hy; [lia|]. simpl in Hy.
      apply (Hafter i); [lia|assumption].
  - apply (lastOcc_none (S idx)) in L. rewrite Forall_forall in L.
    destruct (0 <? len x) eqn:E; [|discriminate].
    intros [= <-]. rewrite Nat.sub_diag. split; [lia|]. split.
    + exists x. split; [reflexivity|now apply len_pos_iff].
    + intros [|i] y Hi Hy; [lia|]. simpl in Hy.
      apply L. eapply nth_error_In; eassumption.
Qed.

(** X3: the per-line pass does not throw, keeps the number of lines, and
    leaves the two indices either both undefined, when every value is the
    empty string, or both defined, with [first <= last] inside the array,
    the values at both non-empty and every value before [first] or after
    [last] empty. *)
Theorem resultArrPreLeadTrail_indices (c : Config) (ls : list jsstring) :
  exists rs occ,
    resultArrPreLeadTrail c ls = Ok (rs, occ) /\
    List.length rs = List.length ls /\
    match firstOccupiedLineIdx occ, lastOccupiedLineIdx occ with
    | Some first, Some last =>
        (first <= last < List.length rs)%nat /\
        (exists r, nth_error rs first = Some r /\ r <> []) /\
        (exists r, nth_error rs last = Some r /\ r <> []) /\
        (forall i r, (i < first \/ last < i)%nat ->
                     nth_error rs i = Some r -> r = [])
    | None, None => Forall (fun r => r = []) rs
    | _, _ => False
    end.
Proof.
  do 2 eexists. split; [apply resultArrPreLeadTrail_spec|].
  split; [apply outLines_length|]. simpl.
  destruct (firstOcc 0 (outLines c ls)) as [f|] eqn:F.
  - destruct (firstOcc_lastOcc _ _ _ F) as [l L]. rewrite L.
    destruct (firstOcc_spec _ _ _ F) as [_ [Hf Hbefore]].
    destruct (lastOcc_spec _ _ _ L) as [_ [Hl Hafter]].
    rewrite Nat.sub_0_r in *.
    pose proof (lastOcc_dropFront _ _ _ _ F L) as LF.
    destruct (lastOcc_dropBack _ _ _ LF) as [Hfl _].
    destruct Hl as [r [Hr Hne]].
    assert (Hlt : (l < List.length (outLines c ls))%nat).
    { apply nth_error_Some. congruence. }
    split; [lia|]. split; [exact Hf|]. split; [eauto|].
    intros i y [Hi|Hi]; eauto.
  - pose proof F as L. apply firstOcc_none, (lastOcc_none 0) in L.
    rewrite L. now apply (firstOcc_none 0).
Qed.

Lemma join_occupied (rs : list jsstring) (r : jsstring) :
  In r rs -> r <> [] -> join rs <> [].
Proof.
  destruct rs as [|l [|l' rest]]; simpl.
  - tauto.
  - intros [<-|[]] H. exact H.
  - intros _ _ E. apply app_eq_nil in E. destruct E; discriminate.
Qed.

Lemma trimLinesPure_nil_iff (c : Config) (str : jsstring) :
  trimLinesPure c str = [] <-> allWhite str.
Proof.
  split; intros H.
  - apply (firstOcc_outLines_none c).
    destruct (firstOcc 0 (outLines c (split str))) as [f|] eqn:F;
      [|reflexivity].
    exfalso. unfold trimLinesPure in H. rewrite F in H.
    destruct (firstOcc_some_in _ _ _ F) as [r [Hin Hr]].
    apply (join_occupied _ r) in H; [assumption| |assumption].
    now apply in_vtrim.
  - apply trimLinesPure_blank. now apply firstOcc_outLines_none.
Qed.

(** X4: [trimLines] returns the empty string exactly for the inputs made
    only of whitespace (the early return is the only way to an empty
    result): an input with a character that is not whitespace gives a
    non-empty output. *)
Theorem trimLines_empty_iff (str : jsstring) (config : option PartialConfig) :
  trimLines str config = Ok [] <-> allWhite str.
Proof.
  rewrite trimLines_spec. rewrite <- (trimLinesPure_nil_iff (resolve config)).
  split; [now intros [= ->]|now intros ->].
Qed.

(** X5: [trimLines] is idempotent under every configuration, not only the
    default one: a second run with the same configuration returns the
    result of the first. *)
Theorem trimLines_idempotent (str : jsstring) (config : option PartialConfig) :
  (out <- trimLines str config ;; trimLines out config)
  = trimLines str config.
Proof.
  rewrite (trimLines_spec str). simpl bind.
  rewrite trimLines_spec. f_equal. apply trimLinesPure_idem.
Qed.

Lemma join_cons (l : jsstring) (rest : list jsstring) :
  rest <> [] -> join (l :: rest) = l ++ newline :: join rest.
Proof. destruct rest; [congruence|reflexivity]. Qed.

Lemma join_split (s : jsstring) : join (split s) = s.
Proof.
  induction s as [|c t IH]; [reflexivity|].
  pose proof (split_not_nil t) as Hne. simpl split.
  destruct (c =? newline)%N eqn:E.
  - apply N.eqb_eq in E. subst c.
    rewrite join_cons by assumption. simpl. now rewrite IH.
  - destruct (split t) as [|l [|l' ls]]; [congruence| |];
      simpl in *; now rewrite IH.
Qed.

(** *** What is not whitespace is kept *)

Lemma nonWhite_app (a b : jsstring) :
  nonWhite (a ++ b) = nonWhite a ++ nonWhite b.
Proof. apply filter_app. Qed.

Lemma nonWhite_trimLeft (s : jsstring) : nonWhite (trimLeft s) = nonWhite s.
Proof.
  induction s as [|c t IH]; simpl; [reflexivity|].
  destruct (isWhiteSpace c) eqn:E; simpl; rewrite ?E; auto.
Qed.

Lemma nonWhite_trimRight (s : jsstring) : nonWhite (trimRight s) = nonWhite s.
Proof.
  unfold trimRight, nonWhite.
  rewrite filter_rev. fold (nonWhite (trimLeft (rev s))).
  rewrite nonWhite_trimLeft. unfold nonWhite.
  now rewrite filter_rev, rev_involutive.
Qed.

Lemma nonWhite_trim (s : jsstring) : nonWhite (trim s) = nonWhite s.
Proof. unfold trim. now rewrite nonWhite_trimRight, nonWhite_trimLeft. Qed.

Lemma nonWhite_allWhite (s : jsstring) : allWhite s -> nonWhite s = [].
Proof.
  unfold allWhite. induction 1 as [|c t Hc _ IH]; simpl; [reflexivity|].
  now rewrite Hc.
Qed.

Lemma nonWhite_lineOut (en : bool) (least : option Z) (l : jsstring) :
  nonWhite (lineOut en least l) = nonWhite l.
Proof.
  unfold lineOut. destruct least; [destruct (_ && _)|];
    rewrite ?nonWhite_app, ?nonWhite_trim; auto.
  now rewrite (nonWhite_allWhite _ (allWhite_repeat_space _)).
Qed.

Lemma nonWhite_join (ls : list jsstring) :
  nonWhite (join ls) = List.concat (map nonWhite ls).
Proof.
  induction ls as [|l rest IH]; [reflexivity|].
  destruct rest as [|l' rest'].
  - simpl. now rewrite app_nil_r.
  - rewrite join_cons by discriminate.
    rewrite nonWhite_app.
    replace (nonWhite (newline :: join (l' :: rest')))
      with (nonWhite (join (l' :: rest'))) by reflexivity.
    rewrite IH. reflexivity.
Qed.

Lemma nonWhite_dropFront (rs : list jsstring) :
  List.concat (map nonWhite (dropFront rs)) = List.concat (map nonWhite rs).
Proof.
  induction rs as [|r t IH]; simpl; [reflexivity|].
  destruct (0 <? len r) eqn:E; [reflexivity|].
  apply len_pos_false_iff in E. subst r. exact IH.
Qed.

Lemma nonWhite_dropBack (rs : list jsstring) :
  List.concat (map nonWhite (dropBack rs)) = List.concat (map nonWhite rs).
Proof.
  induction rs as [|r t IH]; simpl; [reflexivity|].
  rewrite <- IH. destruct (dropBack t) as [|x t'].
  - destruct (0 <? len r) eqn:E; [reflexivity|].
    apply len_pos_false_iff in E. now subst r.
  - reflexivity.
Qed.

Lemma nonWhite_vtrim (c : Config) (rs : list jsstring) :
  List.concat (map nonWhite (vtrim c rs)) = List.concat (map nonWhite rs).
Proof.
  unfold vtrim. destruct (trimVerticalStart c), (trimVerticalEnd c);
    rewrite ?nonWhite_dropBack, ?nonWhite_dropFront; reflexivity.
Qed.

Lemma nonWhite_outLines (c : Config) (ls : list jsstring) :
  map nonWhite (outLines c ls) = map nonWhite ls.
Proof.
  unfold outLines. rewrite map_map. apply map_ext.
  intros l. apply nonWhite_lineOut.
Qed.

(** X6: [trimLines] changes whitespace only: the code units of the output
    that are not whitespace are those of the input, in the same order, under
    every configuration. *)
Theorem trimLines_keeps_non_whitespace (str : jsstring)
  (config : option PartialConfig) :
  exists out, trimLines str config = Ok out /\ nonWhite out = nonWhite str.
Proof.
  eexists. split; [apply trimLines_spec|].
  rewrite <- (join_split str) at 2. rewrite nonWhite_join.
  rewrite <- (nonWhite_outLines (resolve config)).
  unfold trimLinesPure.
  destruct (firstOcc 0 (outLines (resolve config) (split str))) as [f|] eqn:F.
  - now rewrite nonWhite_join, nonWhite_vtrim.
  - apply firstOcc_none in F. symmetry. simpl.
    induction F as [|r t Hr _ IH]; simpl; [reflexivity|].
    now rewrite Hr, IH.
Qed.

(** *** The output is no larger than the input *)

Lemma length_dropFront (rs : list jsstring) :
  (List.length (dropFront rs) <= List.length rs)%nat.
Proof.
  induction rs as [|r t IH]; simpl; [lia|].
  destruct (0 <? len r); simpl; lia.
Qed.

Lemma length_dropBack (rs : list jsstring) :
  (List.length (dropBack rs) <= List.length rs)%nat.
Proof.
  induction rs as [|r t IH]; simpl; [lia|].
  destruct (dropBack t); [destruct (0 <? len r)|]; simpl in *; lia.
Qed.

Lemma length_vtrim (c : Config) (rs : list jsstring) :
  (List.length (vtrim c rs) <= List.length rs)%nat.
Proof.
  unfold vtrim. destruct (trimVerticalStart c), (trimVerticalEnd c);
    try lia.
  - pose proof (length_dropBack (dropFront rs)).
    pose proof (length_dropFront rs). lia.
  - apply length_dropFront.
  - apply length_dropBack.
Qed.

(** X7: the output never has more lines than the input, under every
    configuration. *)
Theorem trimLines_no_more_lines (str : jsstring)
  (config : option PartialConfig) :
  exists out,
    trimLines str config = Ok out /\ (lineCount out <= lineCount str)%nat.
Proof.
  eexists. split; [apply trimLines_spec|].
  destruct (firstOcc 0 (outLines (resolve config) (split str))) as [f|] eqn:F.
  - rewrite <- !split_length, (split_trimLinesPure _ _ _ F).
    rewrite <- (outLines_length (resolve config) (split str)).
    apply length_vtrim.
  - rewrite (trimLinesPure_blank _ _ F). unfold lineCount. simpl. lia.
Qed.

Lemma totalLen_nonneg (ls : list jsstring) : 0 <= totalLen ls.
Proof.
  induction ls as [|l rest IH]; simpl; [lia|].
  pose proof (len_nonneg l). lia.
Qed.

Lemma len_join (ls : list jsstring) :
  ls <> [] -> len (join ls) = totalLen ls - 1.
Proof.
  induction ls as [|l rest IH]; [congruence|]. intros _.
  destruct rest as [|l' rest'].
  - simpl. lia.
  - rewrite join_cons by discriminate.
    rewrite len_app. change (len (newline :: join (l' :: rest')))
      with (Z.of_nat (S (List.length (join (l' :: rest'))))).
    fold (len (join (l' :: rest'))) in IH.
    rewrite Nat2Z.inj_succ. unfold len in *.
    rewrite IH by discriminate. simpl totalLen. unfold len. lia.
Qed.

Lemma totalLen_dropFront (rs : list jsstring) :
  totalLen (dropFront rs) <= totalLen rs.
Proof.
  induction rs as [|r t IH]; simpl; [lia|].
  pose proof (len_nonneg r). destruct (0 <? len r); simpl; lia.
Qed.

Lemma totalLen_dropBack (rs : list jsstring) :
  totalLen (dropBack rs) <= totalLen rs.
Proof.
  induction rs as [|r t IH]; simpl; [lia|].
  pose proof (len_nonneg r). pose proof (totalLen_nonneg t).
  destruct (dropBack t); [destruct (0 <? len r)|]; simpl in *; lia.
Qed.

Lemma totalLen_vtrim (c : Config) (rs : list jsstring) :
  totalLen (vtrim c rs) <= totalLen rs.
Proof.
  unfold vtrim. destruct (trimVerticalStart c), (trimVerticalEnd c);
    try lia.
  - pose proof (totalLen_dropBack (dropFront rs)).
    pose proof (totalLen_dropFront rs). lia.
  - apply totalLen_dropFront.
  - apply totalLen_dropBack.
Qed.

Lemma trimRight_length (s : jsstring) : len (trimRight s) <= len s.
Proof.
  unfold trimRight, len. rewrite length_rev.
  pose proof (trimLeft_length (rev s)) as H. unfold len in H.
  now rewrite length_rev in H.
Qed.

Lemma len_lineOut (en : bool) (least : option Z) (l : jsstring) :
  (forall m, least = Some m -> 0 <= m) ->
  len (lineOut en least l) <= len l.
Proof.
  intros Hm. unfold lineOut. destruct least as [m|]; [|apply trim_length].
  destruct (_ && _); [|apply trim_length].
  specialize (Hm m eq_refl).
  rewrite len_app, len_repeat.
  pose proof (indent_nonneg l) as Hi.
  pose proof (trimRight_length (trimLeft l)) as Ht. fold (trim l) in Ht.
  unfold getStringLeftIndentLength in *. lia.
Qed.

Lemma computeLeastIndent_nonneg (en : bool) (ls : list jsstring) (m : Z) :
  computeLeastIndent en ls = Some m -> 0 <= m.
Proof.
  intros E. destruct (computeLeastIndent_attained _ _ _ E) as [l [_ [_ <-]]].
  apply indent_nonneg.
Qed.

Lemma totalLen_outLines (c : Config) (ls : list jsstring) :
  totalLen (outLines c ls) <= totalLen ls.
Proof.
  unfold outLines.
  pose proof (computeLeastIndent_nonneg (trimLeftToLeastIndent c) ls) as Hm.
  generalize dependent (computeLeastIndent (trimLeftToLeastIndent c) ls).
  intros least Hm. induction ls as [|l rest IH]; simpl; [lia|].
  pose proof (len_lineOut (trimLeftToLeastIndent c) least l Hm). lia.
Qed.

(** X8: the output is never longer than the input, under every
    configuration: the prefix that re-indentation puts back is no longer
    than the whitespace that trimming removed. *)
Theorem trimLines_no_longer (str : jsstring) (config : option PartialConfig) :
  exists out, trimLines str config = Ok out /\ len out <= len str.
Proof.
  eexists. split; [apply trimLines_spec|].
  unfold trimLinesPure.
  destruct (firstOcc 0 (outLines (resolve config) (split str))) as [f|] eqn:F.
  - destruct (firstOcc_some_in _ _ _ F) as [r [Hin Hr]].
    rewrite len_join.
    + rewrite <- (join_split str) at 2.
      rewrite (len_join (split str)) by apply split_not_nil.
      pose proof (totalLen_vtrim (resolve config)
                    (outLines (resolve config) (split str))).
      pose proof (totalLen_outLines (resolve config) (split str)). lia.
    + intros E. apply (in_vtrim (resolve config)) in Hin; [|assumption].
      rewrite E in Hin. contradiction.
  - apply len_nonneg.
Qed.

(** *** The lines of the output *)

Lemma outLines_blank_iff (c : Config) (ls : list jsstring) (r : jsstring) :
  In r (outLines c ls) -> (blank r <-> r = []).
Proof.
  intros Hr. destruct (outLines_in _ _ _ Hr) as [l [_ ->]].
  unfold blank at 1. rewrite lineOut_trim. symmetry. apply lineOut_nil_iff.
Qed.

Lemma dropBack_last (rs : list jsstring) :
  dropBack rs = [] \/ exists init r, dropBack rs = init ++ [r] /\ r <> [].
Proof.
  induction rs as [|x t IH]; simpl; [now left|].
  destruct IH as [->|[init [r [-> Hr]]]].
  - destruct (0 <? len x) eqn:E; [|now left].
    right. exists [], x. split; [reflexivity|now apply len_pos_iff].
  - right. exists (x :: init), r. split; [|exact Hr].
    destruct (init ++ [r]) eqn:E; [|now rewrite <- E].
    apply app_eq_nil in E. destruct E; discriminate.
Qed.

Lemma vtrim_first (c : Config) (rs : list jsstring) (x : jsstring) :
  trimVerticalStart c = true -> In x rs -> x <> [] ->
  exists r rest, vtrim c rs = r :: rest /\ r <> [].
Proof.
  intros Vs Hin Hx. unfold vtrim. rewrite Vs.
  apply in_dropFront in Hin; [|assumption].
  destruct (dropFront_head rs) as [E|[r [t [E Hr]]]];
    [rewrite E in Hin; contradiction|].
  rewrite E. destruct (trimVerticalEnd c); [|eauto].
  destruct (dropBack_cons_occupied r t Hr) as [t' ->]. eauto.
Qed.

Lemma vtrim_last (c : Config) (rs : list jsstring) (x : jsstring) :
  trimVerticalEnd c = true -> In x rs -> x <> [] ->
  exists init r, vtrim c rs = init ++ [r] /\ r <> [].
Proof.
  intros Ve Hin Hx. pose proof (in_vtrim c _ _ Hin Hx) as Hv.
  unfold vtrim in *. rewrite Ve in *.
  destruct (dropBack_last (if trimVerticalStart c then dropFront rs else rs))
    as [E|H]; [rewrite E in Hv; contradiction|exact H].
Qed.

(** X9: when the output is not empty, [trimVerticalStart] makes its first
    line a line that is not blank, and [trimVerticalEnd] makes its last line
    one: the leading, respectively trailing, block of blank lines is gone
    entirely. *)
Theorem trimLines_vertical_edges (str : jsstring)
  (config : option PartialConfig) (out : jsstring) :
  trimLines str config = Ok out ->
  out <> [] ->
  (trimVerticalStart (resolve config) = true ->
   exists r rest, split out = r :: rest /\ ~ blank r) /\
  (trimVerticalEnd (resolve config) = true ->
   exists init r, split out = init ++ [r] /\ ~ blank r).
Proof.
  intros E Hne. rewrite trimLines_spec in E. injection E as <-.
  destruct (firstOcc 0 (outLines (resolve config) (split str))) as [f|] eqn:F.
  - rewrite (split_trimLinesPure _ _ _ F).
    destruct (firstOcc_some_in _ _ _ F) as [x [Hin Hx]].
    assert (Hb : forall r, In r (vtrim (resolve config)
                                   (outLines (resolve config) (split str))) ->
                           r <> [] -> ~ blank r).
    { intros r Hr Hn B. apply Hn. apply incl_vtrim in Hr.
      eapply outLines_blank_iff; eassumption. }
    split; intros V.
    + destruct (vtrim_first _ _ _ V Hin Hx) as [r [rest [Ev Hr]]].
      exists r, rest. split; [assumption|].
      apply Hb; [rewrite Ev; now left|assumption].
    + destruct (vtrim_last _ _ _ V Hin Hx) as [init [r [Ev Hr]]].
      exists init, r. split; [assumption|].
      apply Hb; [rewrite Ev; apply in_or_app; right; now left|assumption].
  - exfalso. apply Hne. now apply trimLinesPure_blank.
Qed.

Lemma trimLines_vertical_edges_witness :
  let str := newline :: lit " " ++ newline :: lit "  ab" ++ newline
               :: lit "c" ++ [newline; newline] in
  let config := Some (mkPartialConfig None None None) in
  let out := lit "  ab" ++ newline :: lit "c" in
  trimLines str config = Ok out /\
  out <> [] /\
  (trimVerticalStart (resolve config) = true ->
   exists r rest, split out = r :: rest /\ ~ blank r) /\
  (trimVerticalEnd (resolve config) = true ->
   exists init r, split out = init ++ [r] /\ ~ blank r).
Proof.
  intros str config out.
  assert (E : trimLines str config = Ok out) by (vm_compute; reflexivity).
  assert (Hne : out <> []) by discriminate.
  split; [exact E|]. split; [exact Hne|].
  exact (trimLines_vertical_edges str config out E Hne).
Defined.

Lemma lineOut_shape (en : bool) (least : option Z) (l : jsstring) :
  exists k, lineOut en least l = repeat space k ++ trim l.
Proof.
  unfold lineOut. destruct least; [destruct (_ && _)|];
    solve [eexists; reflexivity | exists 0%nat; reflexivity].
Qed.

(** X10: under every configuration, each line of a non-empty output is its
    line of the input (the lines dropped at the front counted in) trimmed
    and put behind a run of space characters; so the two lines have the same
    trimmed content, inner whitespace included. *)
Theorem trimLines_line_content (str : jsstring)
  (config : option PartialConfig) (out : jsstring) (i : nat) (r : jsstring) :
  trimLines str config = Ok out ->
  out <> [] ->
  nth_error (split out) i = Some r ->
  exists l k,
    nth_error (split str) (lineOffset (resolve config) (split str) + i)
    = Some l /\
    r = repeat space k ++ trim l /\
    trim r = trim l.
Proof.
  intros E Hne Hr. rewrite trimLines_spec in E. injection E as <-.
  destruct (firstOcc 0 (outLines (resolve config) (split str))) as [f|] eqn:F.
  - apply (out_line_source _ _ _ _ _ F) in Hr.
    rewrite nth_error_outLines in Hr.
    destruct (nth_error (split str) _) as [l|]; [|discriminate].
    simpl in Hr. injection Hr as <-.
    destruct (lineOut_shape (trimLeftToLeastIndent (resolve config))
                (computeLeastIndent (trimLeftToLeastIndent (resolve config))
                   (split str)) l) as [k Ek].
    exists l, k. split; [reflexivity|]. split; [exact Ek|].
    apply lineOut_trim.
  - exfalso. apply Hne. now apply trimLinesPure_blank.
Qed.

Lemma trimLines_line_content_witness :
  let str := newline :: lit "   a  b " ++ newline :: lit " cd" in
  let config := Some (mkPartialConfig None None (Some false)) in
  let out := lit "  a  b" ++ newline :: lit "cd" in
  trimLines str config = Ok out /\
  out <> [] /\
  nth_error (split out) 0 = Some (lit "  a  b") /\
  exists l k,
    nth_error (split str) (lineOffset (resolve config) (split str) + 0)
    = Some l /\
    lit "  a  b" = repeat space k ++ trim l /\
    trim (lit "  a  b") = trim l.
Proof.
  intros str config out.
  assert (E : trimLines str config = Ok out) by (vm_compute; reflexivity).
  assert (Hne : out <> []) by discriminate.
  assert (Hr : nth_error (split out) 0 = Some (lit "  a  b")) by reflexivity.
  split; [exact E|]. split; [exact Hne|]. split; [exact Hr|].
  exact (trimLines_line_content str config out 0%nat _ E Hne Hr).
Defined.

(** X11: re-indentation keeps relative indentation: for two lines of the
    input whose trimmed length is greater than 1, the difference of the
    leading-whitespace run lengths of their values after the per-line pass
    is the difference of those of the lines themselves. *)
Theorem trimLines_relative_indent (str : jsstring)
  (config : option PartialConfig) (i j : nat) (l1 l2 : jsstring) :
  trimLeftToLeastIndent (resolve config) = true ->
  nth_error (split str) i = Some l1 ->
  nth_error (split str) j = Some l2 ->
  1 < len (trim l1) ->
  1 < len (trim l2) ->
  exists rs occ r1 r2,
    resultArrPreLeadTrail (resolve config) (split str) = Ok (rs, occ) /\
    nth_error rs i = Some r1 /\
    nth_error rs j = Some r2 /\
    getStringLeftIndentLength r1 - getStringLeftIndentLength r2
    = getStringLeftIndentLength l1 - getStringLeftIndentLength l2.
Proof.
  intros En H1 H2 L1 L2.
  pose proof (nth_error_In _ _ H1) as In1.
  pose proof (nth_error_In _ _ H2) as In2.
  pose proof (one_lt_len_not_blank _ L1) as B1.
  pose proof (one_lt_len_not_blank _ L2) as B2.
  destruct (computeLeastIndent_some _ _ In1 B1) as [m E].
  pose proof (computeLeastIndent_lower _ _ _ E _ In1 B1) as M1.
  pose proof (computeLeastIndent_lower _ _ _ E _ In2 B2) as M2.
  do 4 eexists. split; [apply resultArrPreLeadTrail_spec|].
  rewrite !nth_error_outLines, H1, H2, En, E. simpl.
  split; [reflexivity|]. split; [reflexivity|].
  unfold lineOut. apply Z.ltb_lt in L1, L2. rewrite L1, L2. simpl.
  rewrite !indent_padded. lia.
Qed.

Lemma trimLines_relative_indent_witness :
  let str := lit "   ab" ++ newline :: [9; 9; 32; 32; 32; 9]%N ++ lit "cd"
               ++ newline :: lit "  ef" in
  let config := Some (mkPartialConfig None (Some false) None) in
  let l1 := lit "   ab" in
  let l2 := [9; 9; 32; 32; 32; 9]%N ++ lit "cd" in
  trimLeftToLeastIndent (resolve config) = true /\
  nth_error (split str) 0 = Some l1 /\
  nth_error (split str) 1 = Some l2 /\
  1 < len (trim l1) /\
  1 < len (trim l2) /\
  exists rs occ r1 r2,
    resultArrPreLeadTrail (resolve config) (split str) = Ok (rs, occ) /\
    nth_error rs 0 = Some r1 /\
    nth_error rs 1 = Some r2 /\
    getStringLeftIndentLength r1 - getStringLeftIndentLength r2
    = getStringLeftIndentLength l1 - getStringLeftIndentLength l2.
Proof.
  intros str config l1 l2.
  assert (H1 : nth_error (split str) 0 = Some l1) by reflexivity.
  assert (H2 : nth_error (split str) 1 = Some l2) by reflexivity.
  assert (L1 : 1 < len (trim l1)) by reflexivity.
  assert (L2 : 1 < len (trim l2)) by reflexivity.
  split; [reflexivity|]. split; [exact H1|]. split; [exact H2|].
  split; [exact L1|]. split; [exact L2|].
  exact (trimLines_relative_indent str config 0%nat 1%nat l1 l2
           eq_refl H1 H2 L1 L2).
Defined.

(** *** One run after another *)

Lemma dropFront_all_empty (rs : list jsstring) :
  Forall (fun r => r = []) rs -> dropFront rs = [].
Proof. induction 1 as [|r t -> _ IH]; simpl; auto. Qed.

Lemma dropFront_dropBack_comm (rs : list jsstring) :
  dropFront (dropBack rs) = dropBack (dropFront rs).
Proof.
  induction rs as [|r t IH]; [reflexivity|].
  destruct (0 <? len r) eqn:E.
  - pose proof E as Hr. apply len_pos_iff in Hr.
    rewrite (dropFront_fixed r t Hr).
    destruct (dropBack_cons_occupied r t Hr) as [t' ->].
    now apply dropFront_fixed.
  - simpl. rewrite E. destruct (dropBack t) as [|x t'] eqn:D.
    + apply dropBack_nil, dropFront_all_empty in D. now rewrite D.
    + rewrite <- IH. simpl. now rewrite E.
Qed.

Lemma vtrim_merge (c c' : Config) (rs : list jsstring) :
  vtrim c' (vtrim c rs) = vtrim (mergeConfig c c') rs.
Proof.
  unfold vtrim, mergeConfig. simpl.
  destruct (trimVerticalStart c), (trimVerticalEnd c),
    (trimVerticalStart c'), (trimVerticalEnd c'); simpl;
    rewrite ?dropFront_dropBack_dropFront, ?dropFront_dropBack_comm,
      ?dropFront_idem, ?dropBack_idem; reflexivity.
Qed.

Lemma map_dropFront (h : jsstring -> jsstring) (rs : list jsstring) :
  (forall r, In r rs -> (0 <? len (h r)) = (0 <? len r)) ->
  map h (dropFront rs) = dropFront (map h rs).
Proof.
  induction rs as [|r t IH]; intros H; simpl; [reflexivity|].
  rewrite (H r) by now left.
  destruct (0 <? len r); [reflexivity|].
  apply IH. intros x Hx. apply H. now right.
Qed.

Lemma map_dropBack (h : jsstring -> jsstring) (rs : list jsstring) :
  (forall r, In r rs -> (0 <? len (h r)) = (0 <? len r)) ->
  map h (dropBack rs) = dropBack (map h rs).
Proof.
  induction rs as [|r t IH]; intros H; simpl; [reflexivity|].
  rewrite (H r) by now left.
  rewrite <- IH by (intros x Hx; apply H; now right).
  destruct (dropBack t); [destruct (0 <? len r)|]; reflexivity.
Qed.

Lemma map_vtrim (c : Config) (h : jsstring -> jsstring) (rs : list jsstring) :
  (forall r, In r rs -> (0 <? len (h r)) = (0 <? len r)) ->
  map h (vtrim c rs) = vtrim c (map h rs).
Proof.
  intros H. unfold vtrim.
  destruct (trimVerticalStart c), (trimVerticalEnd c);
    rewrite ?map_dropBack, ?map_dropFront; auto.
  intros r Hr. apply H. now apply incl_dropFront.
Qed.

Lemma outLines_by_flag (c c' : Config) (ls : list jsstring) :
  trimLeftToLeastIndent c = trimLeftToLeastIndent c' ->
  outLines c ls = outLines c' ls.
Proof. unfold outLines. now intros ->. Qed.

Lemma outLines_disabled (c : Config) (ls : list jsstring) :
  trimLeftToLeastIndent c = false -> outLines c ls = map trim ls.
Proof.
  intros En. unfold outLines. rewrite En. apply map_ext.
  intros l. apply lineOut_disabled.
Qed.

Lemma trim_occupied (c : Config) (ls : list jsstring) (r : jsstring) :
  In r (outLines c ls) -> (0 <? len (trim r)) = (0 <? len r).
Proof.
  intros Hr. pose proof (outLines_blank_iff _ _ _ Hr) as H. unfold blank in H.
  destruct (0 <? len r) eqn:E.
  - apply len_pos_iff. apply len_pos_iff in E. tauto.
  - apply len_pos_false_iff. apply len_pos_false_iff in E. tauto.
Qed.

(** Some occupied line of the result starts at column 0, whether or not
    re-indentation is on. *)
Lemma vtrim_outLines_least (c : Config) (ls : list jsstring) (f : nat) :
  firstOcc 0 (outLines c ls) = Some f ->
  computeLeastIndent true (vtrim c (outLines c ls)) = Some 0.
Proof.
  intros F. apply isMinIndent_compute.
  split; [|intros x _ _; apply indent_nonneg].
  destruct (trimLeftToLeastIndent c) eqn:En.
  - now apply (vtrim_outLines_zero c ls f).
  - destruct (firstOcc_some_in _ _ _ F) as [r [Hin Hr]].
    exists r. split; [now apply in_vtrim|].
    split; [intros B; now apply (outLines_blank_iff _ _ _ Hin) in B|].
    rewrite (outLines_disabled _ _ En) in Hin. apply in_map_iff in Hin.
    destruct Hin as [l [<- _]]. apply indent_trimmed.
Qed.

(** The per-line pass of a second run, on the lines of a first. *)
Lemma outLines_second (c c' : Config) (ls : list jsstring) (f : nat) :
  firstOcc 0 (outLines c ls) = Some f ->
  outLines c' (vtrim c (outLines c ls))
  = vtrim c (outLines (mergeConfig c c') ls).
Proof.
  intros F. destruct (trimLeftToLeastIndent c') eqn:En'.
  - rewrite (outLines_by_flag (mergeConfig c c') c)
      by (simpl; rewrite En'; apply andb_true_r).
    unfold outLines at 1. rewrite En', (vtrim_outLines_least _ _ _ F).
    rewrite <- (map_id (vtrim c (outLines c ls))) at 2.
    apply map_ext_in. intros r Hr. apply incl_vtrim in Hr.
    destruct (outLines_in _ _ _ Hr) as [l [_ ->]]. apply lineOut_again.
  - rewrite (outLines_disabled c') by assumption.
    rewrite (outLines_disabled (mergeConfig c c'))
      by (simpl; rewrite En'; apply andb_false_r).
    rewrite map_vtrim by apply trim_occupied.
    f_equal. unfold outLines. rewrite map_map. apply map_ext.
    intros l. apply lineOut_trim.
Qed.

Lemma trimLinesPure_compose (c c' : Config) (str : jsstring) :
  trimLinesPure c' (trimLinesPure c str)
  = trimLinesPure (mergeConfig c c') str.
Proof.
  destruct (firstOcc 0 (outLines c (split str))) as [f|] eqn:F.
  - assert (W : ~ allWhite str).
    { intros W. apply (firstOcc_outLines_none c) in W. congruence. }
    destruct (firstOcc 0 (outLines (mergeConfig c c') (split str)))
      as [g|] eqn:G;
      [|apply firstOcc_outLines_none in G; contradiction].
    unfold trimLinesPure at 1.
    rewrite (split_trimLinesPure _ _ _ F), (outLines_second _ _ _ _ F).
    destruct (firstOcc_some_in _ _ _ G) as [r [Hin Hr]].
    apply (in_vtrim c) in Hin; [|exact Hr].
    destruct (firstOcc 0 (vtrim c (outLines (mergeConfig c c') (split str))))
      as [h|] eqn:H.
    + rewrite vtrim_merge. unfold trimLinesPure. now rewrite G.
    + apply firstOcc_none in H. rewrite Forall_forall in H.
      apply H in Hin. contradiction.
  - pose proof F as W. apply firstOcc_outLines_none in W.
    rewrite (trimLinesPure_blank _ _ F), trimLinesPure_nil.
    symmetry. now apply trimLinesPure_nil_iff.
Qed.

(** X12: a run under one configuration followed by a run under another is
    one run under the merged configuration: re-indentation only if both runs
    re-indent, each vertical trimming if either run does it. *)
Theorem trimLines_compose (str : jsstring)
  (config config' : option PartialConfig) :
  (out <- trimLines str config ;; trimLines out config')
  = trimLinesWith (mergeConfig (resolve config) (resolve config')) str.
Proof.
  rewrite (trimLines_spec str). simpl bind.
  rewrite trimLines_spec, trimLinesWith_spec. f_equal.
  apply trimLinesPure_compose.
Qed.

(** *** Indentation common to all lines *)

Lemma trim_pad (k : nat) (l : jsstring) : trim (repeat space k ++ l) = trim l.
Proof.
  unfold trim. now rewrite trimLeft_white_prefix by apply allWhite_repeat_space.
Qed.

Lemma indent_pad (k : nat) (l : jsstring) :
  getStringLeftIndentLength (repeat space k ++ l)
  = Z.of_nat k + getStringLeftIndentLength l.
Proof.
  unfold getStringLeftIndentLength.
  rewrite trimLeft_white_prefix by apply allWhite_repeat_space.
  rewrite len_app, len_repeat. lia.
Qed.

Lemma leastIndentStep_pad (k : nat) (acc : option Z) (l : jsstring) :
  leastIndentStep (option_map (Z.add (Z.of_nat k)) acc) (repeat space k ++ l)
  = option_map (Z.add (Z.of_nat k)) (leastIndentStep acc l).
Proof.
  unfold leastIndentStep. rewrite trim_pad, indent_pad.
  destruct (len (trim l) =? 0); [reflexivity|].
  destruct acc as [m|]; simpl; [|reflexivity].
  destruct (getStringLeftIndentLength l <? m) eqn:C.
  - apply Z.ltb_lt in C.
    replace (_ <? _) with true by (symmetry; apply Z.ltb_lt; lia).
    reflexivity.
  - apply Z.ltb_ge in C.
    replace (_ <? _) with false by (symmetry; apply Z.ltb_ge; lia).
    reflexivity.
Qed.

Lemma fold_least_pad (k : nat) (ls : list jsstring) :
  forall acc,
    fold_left leastIndentStep (map (fun l => repeat space k ++ l) ls)
      (option_map (Z.add (Z.of_nat k)) acc)
    = option_map (Z.add (Z.of_nat k)) (fold_left leastIndentStep ls acc).
Proof.
  induction ls as [|l rest IH]; intros acc; simpl; [reflexivity|].
  now rewrite leastIndentStep_pad, IH.
Qed.

Lemma computeLeastIndent_pad (en : bool) (k : nat) (ls : list jsstring) :
  computeLeastIndent en (map (fun l => repeat space k ++ l) ls)
  = option_map (Z.add (Z.of_nat k)) (computeLeastIndent en ls).
Proof.
  unfold computeLeastIndent. destruct en; [|reflexivity].
  apply (fold_least_pad k ls None).
Qed.

Lemma lineOut_pad (en : bool) (k : nat) (least : option Z) (l : jsstring) :
  lineOut en (option_map (Z.add (Z.of_nat k)) least) (repeat space k ++ l)
  = lineOut en least l.
Proof.
  unfold lineOut. rewrite trim_pad, indent_pad.
  destruct least as [m|]; simpl; [|reflexivity].
  destruct (_ && _); [|reflexivity].
  do 2 f_equal. lia.
Qed.

Lemma outLines_pad (c : Config) (k : nat) (ls : list jsstring) :
  outLines c (map (fun l => repeat space k ++ l) ls) = outLines c ls.
Proof.
  unfold outLines. rewrite computeLeastIndent_pad, map_map.
  apply map_ext. intros l. apply lineOut_pad.
Qed.

Lemma split_indentAll (k : nat) (str : jsstring) :
  split (indentAll k str) = map (fun l => repeat space k ++ l) (split str).
Proof.
  unfold indentAll. apply split_join.
  - pose proof (split_not_nil str). destruct (split str); [congruence|].
    discriminate.
  - apply Forall_map. eapply Forall_impl; [|apply split_noNewline].
    intros l. apply noNewline_padded.
Qed.

(** X13: indentation common to all lines does not matter: putting the same
    number of spaces in front of every line of the input leaves the output
    as it is, under every configuration. *)
Theorem trimLines_common_indent (k : nat) (str : jsstring)
  (config : option PartialConfig) :
  trimLines (indentAll k str) config = trimLines str config.
Proof.
  rewrite !trimLines_spec. f_equal. unfold trimLinesPure.
  now rewrite split_indentAll, outLines_pad.
Qed.

(** *** The output as one string *)

Lemma join_last (init : list jsstring) (r : jsstring) :
  exists pre, join (init ++ [r]) = pre ++ r.
Proof.
  induction init as [|l rest [pre IH]]; [exists []; reflexivity|].
  change ((l :: rest) ++ [r]) with (l :: (rest ++ [r])).
  rewrite join_cons by (intros E; apply app_eq_nil in E; destruct E;
                        discriminate).
  rewrite IH. exists (l ++ newline :: pre).
  now rewrite <- app_assoc.
Qed.

Lemma join_first (r : jsstring) (rest : list jsstring) :
  exists suf, join (r :: rest) = r ++ suf.
Proof.
  destruct rest as [|l rest'].
  - exists []. simpl. now rewrite app_nil_r.
  - eexists. apply join_cons. discriminate.
Qed.

(** X14: with [trimVerticalEnd] the output, as one string, ends in no
    whitespace ([trimRight] leaves it as it is); with [trimVerticalStart] and
    re-indentation off it starts with none either. *)
Theorem trimLines_output_trimmed (str : jsstring)
  (config : option PartialConfig) :
  exists out,
    trimLines str config = Ok out /\
    (trimVerticalEnd (resolve config) = true -> trimRight out = out) /\
    (trimVerticalStart (resolve config) = true ->
     trimLeftToLeastIndent (resolve config) = false ->
     trimLeft out = out).
Proof.
  eexists. split; [apply trimLines_spec|].
  unfold trimLinesPure.
  destruct (firstOcc 0 (outLines (resolve config) (split str))) as [f|] eqn:F;
    [|split; reflexivity].
  destruct (firstOcc_some_in _ _ _ F) as [x [Hin Hx]].
  split.
  - intros Ve. destruct (vtrim_last _ _ _ Ve Hin Hx) as [init [r [E Hr]]].
    assert (Hv : In r (outLines (resolve config) (split str))).
    { apply (incl_vtrim (resolve config)). rewrite E.
      apply in_or_app. right. now left. }
    rewrite E. destruct (join_last init r) as [pre ->].
    destruct (outLines_in _ _ _ Hv) as [l [_ El]].
    assert (Ht : trimRight r = r) by (rewrite El; apply lineOut_trimRight).
    rewrite trimRight_app; rewrite Ht; auto.
  - intros Vs En. destruct (vtrim_first _ _ _ Vs Hin Hx) as [r [rest [E Hr]]].
    assert (Hv : In r (outLines (resolve config) (split str))).
    { apply (incl_vtrim (resolve config)). rewrite E. now left. }
    rewrite E. destruct (join_first r rest) as [suf ->].
    rewrite (outLines_disabled _ _ En) in Hv. apply in_map_iff in Hv.
    destruct Hv as [l [El _]].
    assert (Ht : trimLeft r = r) by (rewrite <- El; apply trim_trimLeft).
    rewrite trimLeft_app, Ht. destruct r; [congruence|reflexivity].
Qed.

(** X15: splitting the output at its newlines gives back exactly the lines
    that vertical trimming kept, none of them cut or merged: no value of the
    per-line pass holds a newline, whatever other line terminators the input
    has. *)
Theorem trimLines_lines_round_trip (str : jsstring)
  (config : option PartialConfig) :
  exists rs occ,
    resultArrPreLeadTrail (resolve config) (split str) = Ok (rs, occ) /\
    Forall noNewline rs /\
    (forall first last,
        firstOccupiedLineIdx occ = Some first ->
        lastOccupiedLineIdx occ = Some last ->
        exists out,
          trimLines str config = Ok out /\
          split out = verticalTrim (resolve config) first last rs).
Proof.
  do 2 eexists. split; [apply resultArrPreLeadTrail_spec|].
  split; [apply outLines_noNewline, split_noNewline|].
  simpl. intros f l F L. eexists. split; [apply trimLines_spec|].
  rewrite (split_trimLinesPure _ _ _ F). symmetry.
  now apply verticalTrim_spec.
Qed.
